(** * task_cli: a shallow embedding of the task tracker and its properties

    The development follows [task_cli.py]:
    - Python strings are sequences of Unicode code points;
    - the tasks file is a piece of text, read with [json.load] and written
      with [json.dump(..., indent=2)]; both are embedded as functions on text;
    - a command runs on a world made of the tasks file and the clock, and
      yields what it echoes, how the process exits and the world it leaves. *)

From Stdlib Require Import Decimal DecimalFacts DecimalZ.
From Stdlib Require Import String Ascii.
From Stdlib Require Import List NArith ZArith Lia Bool.
Import ListNotations.

Set Implicit Arguments.
Set Warnings "-register-all".

(** ** Python strings *)

(** A [str] is a sequence of code points. *)
Abbreviation char := N (only parsing).
Abbreviation str := (list N) (only parsing).

(** A string literal of the source, as code points. *)
Definition lit (s : string) : str := map N_of_ascii (list_ascii_of_string s).

(** [str.isspace] on one character, the test [str.split()] uses to find
    separators. *)
Definition isspace (c : char) : bool :=
  ((9 <=? c) && (c <=? 13) || (28 <=? c) && (c <=? 32)
   || (c =? 133) || (c =? 160) || (c =? 5760)
   || (8192 <=? c) && (c <=? 8202)
   || (c =? 8232) || (c =? 8233) || (c =? 8239) || (c =? 8287)
   || (c =? 12288))%N.

(** [s.split()] without separator: the maximal runs of characters that are
    not whitespace.  [word] is the run being read, if one is open. *)
Fixpoint split_from (word : option str) (s : str) : list str :=
  match s with
  | [] => match word with Some w => [w] | None => [] end
  | c :: s' =>
      if isspace c then
        match word with
        | Some w => w :: split_from None s'
        | None => split_from None s'
        end
      else
        match word with
        | Some w => split_from (Some (w ++ [c])) s'
        | None => split_from (Some [c]) s'
        end
  end.

Definition split (s : str) : list str := split_from None s.

(** [a == b] on two strings *)
Fixpoint str_eqb (a b : str) : bool :=
  match a, b with
  | [], [] => true
  | c :: a', d :: b' => (c =? d)%N && str_eqb a' b'
  | _, _ => false
  end.

(** [sep.join(words)] *)
Fixpoint join (sep : str) (words : list str) : str :=
  match words with
  | [] => []
  | [w] => w
  | w :: ws => w ++ sep ++ join sep ws
  end.

(** ** Errors raised by the program *)

Inductive exn : Type :=
| BadParameter (msg : str)      (* click.BadParameter: usage error *)
| ClickException (msg : str).   (* click.ClickException *)

Inductive result (E A : Type) : Type :=
| Ok (a : A)
| Raise (e : E).
Arguments Ok {E A} a.
Arguments Raise {E A} e.

(** ** validate_description *)

Definition validate_description (description : str) : result exn str :=
  let normalized := join (lit " ") (split description) in
  if (length normalized =? 0)%nat then
    Raise (BadParameter (lit "Task description cannot be empty"))
  else if (500 <? length normalized)%nat then
    Raise (BadParameter (lit "Task description is too long"))
  else Ok normalized.

(** ** JSON values *)

(** What [json.load] can return.  A floating-point literal is kept as it is
    written: floating-point arithmetic is outside this development, and no
    store written by the program holds one.  An object is a Python dict:
    its keys are distinct and keep their order of insertion. *)
Inductive json : Type :=
| JNull
| JBool (b : bool)
| JInt (z : Z)
| JFloat (literal : str)
| JStr (s : str)
| JArr (items : list json)
| JObj (members : list (str * json)).

(** ** json.dump *)

(** [int.__repr__]: decimal digits, most significant first. *)
Fixpoint digits (u : uint) : str :=
  (match u with
   | Nil => []
   | D0 u => 48 :: digits u
   | D1 u => 49 :: digits u
   | D2 u => 50 :: digits u
   | D3 u => 51 :: digits u
   | D4 u => 52 :: digits u
   | D5 u => 53 :: digits u
   | D6 u => 54 :: digits u
   | D7 u => 55 :: digits u
   | D8 u => 56 :: digits u
   | D9 u => 57 :: digits u
   end)%N.

Definition repr_int (z : Z) : str :=
  match Z.to_int z with
  | Pos u => digits u
  | Neg u => 45%N :: digits u
  end.

(** One lower-case hexadecimal digit, for a value below 16. *)
Definition hexdigit (d : N) : char :=
  (if d <? 10 then 48 + d else 87 + d)%N.

(** The escape of a code unit: backslash (92), u (117) and four
    hexadecimal digits in lower case. *)
Definition u_escape (n : N) : str :=
  (92 :: 117 :: hexdigit (n / 4096 mod 16) :: hexdigit (n / 256 mod 16)
      :: hexdigit (n / 16 mod 16) :: [hexdigit (n mod 16)])%N.

(** The two halves of the surrogate pair of a character above U+FFFF. *)
Definition high_half (c : N) : N :=
  N.lor 55296 (N.land (N.shiftr (c - 65536) 10) 1023).
Definition low_half (c : N) : N :=
  N.lor 56320 (N.land (c - 65536) 1023).

(** The replacement of one character in [encode_basestring_ascii]: the
    characters from space to tilde stand for themselves, except the quote
    and the backslash; the others are escaped, above U+FFFF as a surrogate
    pair. *)
Definition escape_char (c : char) : str :=
  (if c =? 34 then [92; 34]                  (* quote: backslash, quote *)
   else if c =? 92 then [92; 92]             (* backslash: two of them *)
   else if c =? 8 then [92; 98]              (* backspace: backslash, b *)
   else if c =? 12 then [92; 102]            (* form feed: backslash, f *)
   else if c =? 10 then [92; 110]            (* line feed: backslash, n *)
   else if c =? 13 then [92; 114]            (* carriage return: backslash, r *)
   else if c =? 9 then [92; 116]             (* tab: backslash, t *)
   else if (32 <=? c) && (c <=? 126) then [c]  (* space to tilde *)
   else if c <? 65536 then u_escape c
   else u_escape (high_half c) ++ u_escape (low_half c))%N.

Definition encode_basestring_ascii (s : str) : str :=
  34%N :: flat_map escape_char s ++ [34%N].

(** A line break followed by the indentation of a nesting level
    ([indent=2]). *)
Definition newline_indent (level : nat) : str :=
  10%N :: repeat 32%N (2 * level).

(** The separator of the items of a level: a comma and a new line. *)
Definition item_sep (level : nat) : str := lit "," ++ newline_indent level.

(** The text [json.dump(v, f, indent=2)] writes for a value at a nesting
    level.  A float is written by its literal. *)
Fixpoint encode (level : nat) (v : json) : str :=
  match v with
  | JNull => lit "null"
  | JBool true => lit "true"
  | JBool false => lit "false"
  | JInt z => repr_int z
  | JFloat x => x
  | JStr s => encode_basestring_ascii s
  | JArr [] => lit "[]"
  | JArr items =>
      lit "[" ++ newline_indent (S level)
        ++ join (item_sep (S level)) (map (encode (S level)) items)
        ++ newline_indent level ++ lit "]"
  | JObj [] => lit "{}"
  | JObj members =>
      lit "{" ++ newline_indent (S level)
        ++ join (item_sep (S level))
             (map (fun kv => encode_basestring_ascii (fst kv) ++ lit ": "
                             ++ encode (S level) (snd kv)) members)
        ++ newline_indent level ++ lit "}"
  end.

Definition json_dumps (v : json) : str := encode 0 v.

(** The text of a member of a dict: the key, a colon and the value. *)
Definition member_text (level : nat) (kv : str * json) : str :=
  encode_basestring_ascii (fst kv) ++ lit ": " ++ encode level (snd kv).

(** ** json.load *)

(** The scanner of the [json] module, as it works on a text: its values, its
    messages and the positions they point at (those of CPython up to 3.12;
    later versions word the message for a comma before a closing bracket
    differently).  Two limits of the interpreter are left out: the depth of
    recursion and the number of digits of an integer. *)

(** A failure of the scanner: the message of the [JSONDecodeError] and the
    number of characters left from the place it points at.  [OutOfFuel] is
    the bound of the recursion running out; [json_loads] gives a bound that
    never does. *)
Inductive scan_error : Type :=
| ScanError (msg : str) (remaining : nat)
| OutOfFuel.

Definition scanned (A : Type) : Type := result scan_error (A * str).

(** [IS_WHITESPACE] of the scanner: space (32), tab (9), line feed (10),
    carriage return (13). *)
Definition is_ws (c : char) : bool :=
  ((c =? 32) || (c =? 9) || (c =? 10) || (c =? 13))%N.

(** The text after a character, when the text starts with it. *)
Definition expect (c : char) (s : str) : option str :=
  match s with
  | c' :: s' => if (c' =? c)%N then Some s' else None
  | [] => None
  end.

Fixpoint skip_ws (s : str) : str :=
  match s with
  | c :: s' => if is_ws c then skip_ws s' else s
  | [] => []
  end.

(** The value of a hexadecimal digit, of either case. *)
Definition hexval (c : char) : option N :=
  (if (48 <=? c) && (c <=? 57) then Some (c - 48)
   else if (97 <=? c) && (c <=? 102) then Some (c - 87)
   else if (65 <=? c) && (c <=? 70) then Some (c - 55)
   else None)%N.

Definition hex4 (h1 h2 h3 h4 : char) : option N :=
  match hexval h1, hexval h2, hexval h3, hexval h4 with
  | Some a, Some b, Some c, Some d => Some (((a * 16 + b) * 16 + c) * 16 + d)%N
  | _, _, _, _ => None
  end.

Definition is_high_surrogate (c : N) : bool := ((55296 <=? c) && (c <=? 56319))%N.
Definition is_low_surrogate (c : N) : bool := ((56320 <=? c) && (c <=? 57343))%N.

(** [Py_UNICODE_JOIN_SURROGATES] *)
Definition join_surrogates (hi lo : N) : N :=
  (65536 + (N.lor (N.shiftl (N.land hi 1023) 10) (N.land lo 1023)))%N.

(** The character a one-letter escape stands for. *)
Definition backslash (c : char) : option char :=
  (if c =? 34 then Some 34         (* quote *)
   else if c =? 92 then Some 92    (* backslash *)
   else if c =? 47 then Some 47    (* slash *)
   else if c =? 98 then Some 8     (* b: backspace *)
   else if c =? 102 then Some 12   (* f: form feed *)
   else if c =? 110 then Some 10   (* n: line feed *)
   else if c =? 114 then Some 13   (* r: carriage return *)
   else if c =? 116 then Some 9    (* t: tab *)
   else None)%N.

Definition prepend (c : char) (r : scanned str) : scanned str :=
  match r with
  | Ok (cs, rest) => Ok (c :: cs, rest)
  | Raise e => Raise e
  end.

(** [scanstring], strict: [s] starts after the opening quote, which stands
    [begin] characters from the end.  The string ends at a quote (34); a
    backslash (92) starts an escape, with u (117) one of four hexadecimal
    digits; an escaped high surrogate that an escaped low surrogate follows
    makes one character with it; a control character is refused.  The
    scanner asks for a character after the four digits of an escape, and
    after those of the second escape of a pair: a text that ends there has
    an invalid escape, not an unterminated string. *)
Fixpoint scanstring (begin : nat) (s : str) : scanned str :=
  match s with
  | [] => Raise (ScanError (lit "Unterminated string starting at") begin)
  | c :: s1 =>
      if (c =? 34)%N then Ok ([], s1)
      else if (c =? 92)%N then
        match s1 with
        | [] => Raise (ScanError (lit "Unterminated string starting at") begin)
        | e :: s2 =>
            if (e =? 117)%N then
              match s2 with
              | h1 :: h2 :: h3 :: h4 :: ((_ :: _) as s3) =>
                  match hex4 h1 h2 h3 h4 with
                  | None =>
                      Raise (ScanError (lit "Invalid \uXXXX escape") (length s1))
                  | Some uni =>
                      if is_high_surrogate uni then
                        match s3 with
                        | b :: u :: g1 :: g2 :: g3 :: g4 :: ((_ :: _) as s4) =>
                            if ((b =? 92) && (u =? 117))%N then
                              match hex4 g1 g2 g3 g4 with
                              | None =>
                                  Raise (ScanError (lit "Invalid \uXXXX escape")
                                           (5 + length s4))
                              | Some uni2 =>
                                  if is_low_surrogate uni2
                                  then prepend (join_surrogates uni uni2)
                                         (scanstring begin s4)
                                  else prepend uni (scanstring begin s3)
                              end
                            else prepend uni (scanstring begin s3)
                        | _ => prepend uni (scanstring begin s3)
                        end
                      else prepend uni (scanstring begin s3)
                  end
              | _ => Raise (ScanError (lit "Invalid \uXXXX escape") (length s1))
              end
            else
              match backslash e with
              | Some c' => prepend c' (scanstring begin s2)
              | None => Raise (ScanError (lit "Invalid \escape") (length s))
              end
        end
      else if (c <=? 31)%N then
        Raise (ScanError (lit "Invalid control character at") (length s))
      else prepend c (scanstring begin s1)
  end.

(** *** Numbers *)

Definition digit_of (c : char) : option (uint -> uint) :=
  (if c =? 48 then Some D0 else if c =? 49 then Some D1
   else if c =? 50 then Some D2 else if c =? 51 then Some D3
   else if c =? 52 then Some D4 else if c =? 53 then Some D5
   else if c =? 54 then Some D6 else if c =? 55 then Some D7
   else if c =? 56 then Some D8 else if c =? 57 then Some D9
   else None)%N.

Definition is_digit (c : char) : bool :=
  match digit_of c with Some _ => true | None => false end.

(** The longest run of digits at the head of a text, and what follows. *)
Fixpoint scan_digits (s : str) : uint * str :=
  match s with
  | [] => (Nil, [])
  | c :: s' =>
      match digit_of c with
      | Some d => let (u, rest) := scan_digits s' in (d u, rest)
      | None => (Nil, s)
      end
  end.

(** The fraction of a number: a dot (46) followed by at least one digit. *)
Definition skip_frac (s : str) : option str :=
  match s with
  | dot :: d :: s' =>
      if ((dot =? 46)%N && is_digit d)%bool then Some (snd (scan_digits s'))
      else None
  | _ => None
  end.

(** The exponent of a number: e (101) or E (69), a sign if any (45 or 43),
    at least one digit. *)
Definition skip_exp (s : str) : option str :=
  match s with
  | e :: s1 =>
      if ((e =? 101) || (e =? 69))%N then
        let s2 := match s1 with
                  | sign :: s' =>
                      if ((sign =? 45) || (sign =? 43))%N then s' else s1
                  | [] => s1
                  end in
        match s2 with
        | d :: s3 => if is_digit d then Some (snd (scan_digits s3)) else None
        | [] => None
        end
      else None
  | [] => None
  end.

(** [_match_number]: an optional minus sign (45), then 0 (48) or a run of
    digits that does not start with 0, then an optional fraction and an
    optional exponent.  With neither the number is an [int], otherwise a
    [float], kept as the text that was read. *)
Definition match_number (s : str) : scanned json :=
  let expecting_value := Raise (ScanError (lit "Expecting value") (length s)) in
  let (negative, s1) :=
    match s with
    | c :: s' => if (c =? 45)%N then (true, s') else (false, s)
    | [] => (false, s)
    end in
  match s1 with
  | [] => expecting_value
  | c :: s2 =>
      let int_part :=
        if (c =? 48)%N then Some (D0 Nil, s2)
        else if is_digit c then Some (scan_digits s1)
        else None in
      match int_part with
      | None => expecting_value
      | Some (u, s3) =>
          let (has_frac, s4) :=
            match skip_frac s3 with Some r => (true, r) | None => (false, s3) end in
          let (has_exp, s5) :=
            match skip_exp s4 with Some r => (true, r) | None => (false, s4) end in
          if (has_frac || has_exp)%bool
          then Ok (JFloat (firstn (length s - length s5) s), s5)
          else Ok (JInt (Z.of_int (if negative then Neg u else Pos u)), s5)
      end
  end.

(** Whether a text starts with a word. *)
Fixpoint strip_prefix (word s : str) : option str :=
  match word, s with
  | [], _ => Some s
  | w :: word', c :: s' => if (w =? c)%N then strip_prefix word' s' else None
  | _ :: _, [] => None
  end.

(** *** Values *)

(** [dict[key] = value]: a key already there keeps its place. *)
Fixpoint dict_set (d : list (str * json)) (key : str) (value : json)
  : list (str * json) :=
  match d with
  | [] => [(key, value)]
  | (k, v) :: d' =>
      if str_eqb k key then (k, value) :: d'
      else (k, v) :: dict_set d' key value
  end.

(** The loop of [_parse_array]: [s] starts at an item; [n] bounds the number
    of turns.  After an item comes the closing bracket (93) or a comma
    (44). *)
Fixpoint parse_items (scan : str -> scanned json) (n : nat) (s : str)
  : scanned (list json) :=
  match n with
  | 0 => Raise OutOfFuel
  | S n' =>
      match scan s with
      | Raise e => Raise e
      | Ok (v, s1) =>
          let s2 := skip_ws s1 in
          match s2 with
          | c :: s3 =>
              if (c =? 93)%N then Ok ([v], s3)
              else if (c =? 44)%N then
                match parse_items scan n' (skip_ws s3) with
                | Ok (vs, rest) => Ok (v :: vs, rest)
                | Raise e => Raise e
                end
              else Raise (ScanError (lit "Expecting ',' delimiter") (length s2))
          | [] => Raise (ScanError (lit "Expecting ',' delimiter") 0)
          end
      end
  end.

(** The loop of [_parse_object]: [s] starts at a key, a string in quotes
    (34), that a colon (58) and a value follow; then comes the closing brace
    (125) or a comma (44).  [d] holds the members read so far. *)
Fixpoint parse_members (scan : str -> scanned json) (n : nat)
    (d : list (str * json)) (s : str) : scanned (list (str * json)) :=
  match n with
  | 0 => Raise OutOfFuel
  | S n' =>
      match expect 34 s with
      | Some s0 =>
          match scanstring (length s) s0 with
          | Raise e => Raise e
          | Ok (key, s1) =>
              let s2 := skip_ws s1 in
              match expect 58 s2 with
              | Some s3 =>
                  match scan (skip_ws s3) with
                  | Raise e => Raise e
                  | Ok (v, s4) =>
                      let d' := dict_set d key v in
                      let s5 := skip_ws s4 in
                      match s5 with
                      | c :: s6 =>
                          if (c =? 125)%N then Ok (d', s6)
                          else if (c =? 44)%N then
                            parse_members scan n' d' (skip_ws s6)
                          else Raise (ScanError (lit "Expecting ',' delimiter")
                                        (length s5))
                      | [] => Raise (ScanError (lit "Expecting ',' delimiter") 0)
                      end
                  end
              | None =>
                  Raise (ScanError (lit "Expecting ':' delimiter") (length s2))
              end
          end
      | None =>
          Raise (ScanError
                   (lit "Expecting property name enclosed in double quotes")
                   (length s))
      end
  end.

(** A named constant when the text starts with its word, and [otherwise]
    when it does not. *)
Definition constant (word : string) (v : json) (s : str)
    (otherwise : scanned json) : scanned json :=
  match strip_prefix (lit word) s with
  | Some rest => Ok (v, rest)
  | None => otherwise
  end.

(** [scan_once]: one JSON value at the head of [s], chosen by its first
    character: a quote (34) opens a string, a brace (123) a dict, a bracket
    (91) an array; n, t, f, N, I and the minus sign (110, 116, 102, 78, 73,
    45) may start a named constant; anything else must be a number.  [fuel]
    bounds the depth of nesting. *)
Fixpoint scan_once (fuel : nat) (s : str) : scanned json :=
  match fuel with
  | 0 => Raise OutOfFuel
  | S fuel' =>
      match s with
      | [] => Raise (ScanError (lit "Expecting value") 0)
      | c :: s1 =>
          if (c =? 34)%N then
            match scanstring (length s) s1 with
            | Ok (x, rest) => Ok (JStr x, rest)
            | Raise e => Raise e
            end
          else if (c =? 123)%N then
            match expect 125 (skip_ws s1) with
            | Some rest => Ok (JObj [], rest)
            | None =>
                match parse_members (scan_once fuel') (length s) []
                        (skip_ws s1) with
                | Ok (d, rest) => Ok (JObj d, rest)
                | Raise e => Raise e
                end
            end
          else if (c =? 91)%N then
            match expect 93 (skip_ws s1) with
            | Some rest => Ok (JArr [], rest)
            | None =>
                match parse_items (scan_once fuel') (length s) (skip_ws s1) with
                | Ok (vs, rest) => Ok (JArr vs, rest)
                | Raise e => Raise e
                end
            end
          else if (c =? 110)%N then constant "null" JNull s (match_number s)
          else if (c =? 116)%N then constant "true" (JBool true) s (match_number s)
          else if (c =? 102)%N then constant "false" (JBool false) s (match_number s)
          else if (c =? 78)%N then constant "NaN" (JFloat (lit "NaN")) s (match_number s)
          else if (c =? 73)%N then
            constant "Infinity" (JFloat (lit "Infinity")) s (match_number s)
          else if (c =? 45)%N then
            constant "-Infinity" (JFloat (lit "-Infinity")) s (match_number s)
          else match_number s
      end
  end.

(** The error as Python raises it: message, document and position. *)
Record JSONDecodeError : Type := {
  msg : str;
  doc : str;
  pos : nat
}.

(** [json.loads] of a text: no byte order mark (65279) at the start, one
    value, and nothing but whitespace after it. *)
Definition json_loads (text : str) : result JSONDecodeError json :=
  let error m remaining :=
    Raise {| msg := m; doc := text; pos := length text - remaining |} in
  match expect 65279 text with
  | Some _ =>
      error (lit "Unexpected UTF-8 BOM (decode using utf-8-sig)") (length text)
  | None =>
      match scan_once (S (length text)) (skip_ws text) with
      | Ok (obj, rest) =>
          match skip_ws rest with
          | [] => Ok obj
          | extra => error (lit "Extra data") (length extra)
          end
      | Raise (ScanError m remaining) => error m remaining
      | Raise OutOfFuel => error (lit "Expecting value") 0
      end
  end.

(** [str(e)] for a [JSONDecodeError]: the message, then the line, the column
    and the offset of the position. *)
Fixpoint last_line (s line : str) : str :=
  match s with
  | [] => line
  | c :: s' => if (c =? 10)%N then last_line s' [] else last_line s' (line ++ [c])
  end.

Definition str_of_error (e : JSONDecodeError) : str :=
  let before := firstn (pos e) (doc e) in
  let lineno := length (filter (fun c => (c =? 10)%N) before) + 1 in
  let colno := length (last_line before []) + 1 in
  msg e ++ lit ": line " ++ repr_int (Z.of_nat lineno)
    ++ lit " column " ++ repr_int (Z.of_nat colno)
    ++ lit " (char " ++ repr_int (Z.of_nat (pos e)) ++ lit ")".

(** ** Tasks *)

(** A task as [add_task] builds it.  The two timestamps are the texts
    [datetime.now().isoformat()] returned. *)
Record Task : Type := {
  id : Z;
  description : str;
  status : str;
  createdAt : str;
  updatedAt : str
}.

(** A task as the dict that is dumped. *)
Definition task_to_json (t : Task) : json :=
  JObj [ (lit "id", JInt (id t));
         (lit "description", JStr (description t));
         (lit "status", JStr (status t));
         (lit "createdAt", JStr (createdAt t));
         (lit "updatedAt", JStr (updatedAt t)) ].

(** The inverse of [task_to_json]: the dicts that have these five keys in
    this order, with an [int] and four [str]. *)
Definition task_of_json (j : json) : option Task :=
  match j with
  | JObj [ (k1, JInt i); (k2, JStr d); (k3, JStr s); (k4, JStr c); (k5, JStr u) ] =>
      if (str_eqb k1 (lit "id") && str_eqb k2 (lit "description")
          && str_eqb k3 (lit "status") && str_eqb k4 (lit "createdAt")
          && str_eqb k5 (lit "updatedAt"))%bool
      then Some {| id := i; description := d; status := s;
                   createdAt := c; updatedAt := u |}
      else None
  | _ => None
  end.

Fixpoint all_tasks (items : list json) : option (list Task) :=
  match items with
  | [] => Some []
  | j :: items' =>
      match task_of_json j, all_tasks items' with
      | Some t, Some ts => Some (t :: ts)
      | _, _ => None
      end
  end.

(** The value [load_tasks] is declared to return, [List[Dict]], as a list
    of tasks. *)
Definition tasks_of_json (j : json) : option (list Task) :=
  match j with
  | JArr items => all_tasks items
  | _ => None
  end.

Definition tasks_to_json (tasks : list Task) : json :=
  JArr (map task_to_json tasks).

(** ** The world a command runs in *)

(** [TASKS_FILE]: absent, holding a text, or failing when it is accessed
    (the exception of [stat], [open] or [read], with its message).  The text
    is the one that reading the file gives, decoded and with its line ends
    as line feeds; it has no character exactly when the file has no byte. *)
Inductive file_state : Type :=
| Missing
| Contents (text : str)
| Unreadable (reason : str).

(** The file, the clock and the terminal.  [clock n] is the text of the
    [n]-th [datetime.now().isoformat()] and [ticks] the number of readings
    made; [stdout] and [stderr] hold the lines echoed, oldest first. *)
Record World : Type := {
  tasks_file : file_state;
  clock : nat -> str;
  ticks : nat;
  stdout : list str;
  stderr : list str
}.

(** How a piece of the program ends.  [Unmodelled] stands for a run this
    development does not follow: the file holds JSON that is not a list of
    task dicts, on which the program works or fails field by field. *)
Inductive completion (A : Type) : Type :=
| Returns (a : A)
| Raises (e : exn)
| Unmodelled.
Arguments Returns {A} a.
Arguments Raises {A} e.
Arguments Unmodelled {A}.

Definition prog (A : Type) : Type := World -> completion A * World.

Definition ret {A} (a : A) : prog A := fun w => (Returns a, w).

Definition bind {A B} (m : prog A) (k : A -> prog B) : prog B :=
  fun w =>
    match m w with
    | (Returns a, w') => k a w'
    | (Raises e, w') => (Raises e, w')
    | (Unmodelled, w') => (Unmodelled, w')
    end.

Notation "x <- m ;; k" := (bind m (fun x => k))
  (at level 61, m at next level, right associativity).
Notation "m ;; k" := (bind m (fun _ => k))
  (at level 61, right associativity).

Definition raise {A} (e : exn) : prog A := fun w => (Raises e, w).

(** [datetime.now().isoformat()] *)
Definition now : prog str :=
  fun w => (Returns (clock w (ticks w)),
            {| tasks_file := tasks_file w; clock := clock w;
               ticks := S (ticks w);
               stdout := stdout w; stderr := stderr w |}).

(** [click.echo(message)] and [click.echo(message, err=True)] *)
Definition echo (message : str) : prog unit :=
  fun w => (Returns tt,
            {| tasks_file := tasks_file w; clock := clock w; ticks := ticks w;
               stdout := stdout w ++ [message]; stderr := stderr w |}).

Definition echo_err (message : str) : prog unit :=
  fun w => (Returns tt,
            {| tasks_file := tasks_file w; clock := clock w; ticks := ticks w;
               stdout := stdout w; stderr := stderr w ++ [message] |}).

(** ** load_tasks and save_tasks *)

(** What [load_tasks] gets from the file: the empty list when the file is
    missing or has no character, the value [json.load] reads otherwise, and
    a [ClickException] when the text does not parse or the file cannot be
    accessed. *)
Definition load_json (f : file_state) : result exn json :=
  match f with
  | Missing => Ok (JArr [])
  | Contents [] => Ok (JArr [])
  | Contents text =>
      match json_loads text with
      | Ok j => Ok j
      | Raise e =>
          Raise (ClickException
                   (lit "Error: Tasks file is corrupted. " ++ str_of_error e))
      end
  | Unreadable reason =>
      Raise (ClickException (lit "Error accessing tasks file: " ++ reason))
  end.

(** [load_tasks], with its value seen as a list of tasks. *)
Definition load_tasks : prog (list Task) :=
  fun w =>
    match load_json (tasks_file w) with
    | Ok j =>
        match tasks_of_json j with
        | Some tasks => (Returns tasks, w)
        | None => (Unmodelled, w)
        end
    | Raise e => (Raises e, w)
    end.

(** Every command loads before it saves, so the file can be opened when
    [save_tasks] runs: it is created or overwritten. *)
Definition save_tasks (tasks : list Task) : prog unit :=
  fun w => (Returns tt,
            {| tasks_file := Contents (json_dumps (tasks_to_json tasks));
               clock := clock w; ticks := ticks w;
               stdout := stdout w; stderr := stderr w |}).

(** ** The commands *)

(** A task after an assignment to one of its keys. *)
Definition with_description (task : Task) (d : str) : Task :=
  {| id := id task; description := d; status := status task;
     createdAt := createdAt task; updatedAt := updatedAt task |}.

Definition with_status (task : Task) (s : str) : Task :=
  {| id := id task; description := description task; status := s;
     createdAt := createdAt task; updatedAt := updatedAt task |}.

Definition with_updatedAt (task : Task) (stamp : str) : Task :=
  {| id := id task; description := description task; status := status task;
     createdAt := createdAt task; updatedAt := stamp |}.

(** [max(ids, default=0)] *)
Definition max_default0 (ids : list Z) : Z :=
  match ids with
  | [] => 0%Z
  | i :: ids' => fold_left Z.max ids' i
  end.

Definition add_task (description : str) : prog Task :=
  tasks <- load_tasks ;;
  let next_id := (max_default0 (map id tasks) + 1)%Z in
  created <- now ;;
  updated <- now ;;
  let new_task := {| id := next_id; description := description;
                     status := lit "todo";
                     createdAt := created; updatedAt := updated |} in
  save_tasks (tasks ++ [new_task]) ;;
  ret new_task.

Definition add (description : str) : prog unit :=
  match validate_description description with
  | Raise e => raise e
  | Ok description =>
      new_task <- add_task description ;;
      echo (lit "Task added successfully (ID: " ++ repr_int (id new_task)
              ++ lit ")")
  end.

(** The loop [for task in tasks] of [update]: [seen] are the tasks already
    passed, [rest] the ones to come; the task that matches is changed in
    place in the list that is saved.  Returns whether a task matched. *)
Fixpoint update_scan (task_id : Z) (description : str)
    (seen rest : list Task) : prog bool :=
  match rest with
  | [] => ret false
  | task :: rest' =>
      if (id task =? task_id)%Z then
        let task := with_description task description in
        stamp <- now ;;
        let task := with_updatedAt task stamp in
        save_tasks (seen ++ task :: rest') ;;
        echo (lit "Task " ++ repr_int task_id ++ lit " updated successfully") ;;
        ret true
      else update_scan task_id description (seen ++ [task]) rest'
  end.

Definition update (task_id : Z) (description : str) : prog unit :=
  tasks <- load_tasks ;;
  found <- update_scan task_id description [] tasks ;;
  if found : bool then ret tt
  else echo_err (lit "Task " ++ repr_int task_id ++ lit " not found").

Definition delete (task_id : Z) : prog unit :=
  tasks <- load_tasks ;;
  let tasks := filter (fun task => negb (id task =? task_id)%Z) tasks in
  save_tasks tasks ;;
  echo (lit "Task " ++ repr_int task_id ++ lit " deleted successfully").

(** The line [list] prints for a task. *)
Definition task_line (task : Task) : str :=
  lit "[" ++ repr_int (id task) ++ lit "] " ++ description task
    ++ lit " (" ++ status task ++ lit ")".

Fixpoint echo_all (lines : list str) : prog unit :=
  match lines with
  | [] => ret tt
  | l :: lines' => echo l ;; echo_all lines'
  end.

(** The command [list]; [status] is one of the choices all, done, todo and
    in-progress. *)
Definition list_tasks (status_arg : str) : prog unit :=
  tasks <- load_tasks ;;
  let tasks :=
    if negb (str_eqb status_arg (lit "all"))
    then filter (fun task => str_eqb (status task) status_arg) tasks
    else tasks in
  match tasks with
  | [] => echo (lit "No tasks found")
  | _ => echo_all (map task_line tasks)
  end.

(** The loop of [_update_task_status] *)
Fixpoint status_scan (task_id : Z) (new_status : str)
    (seen rest : list Task) : prog bool :=
  match rest with
  | [] => ret false
  | task :: rest' =>
      if (id task =? task_id)%Z then
        let task := with_status task new_status in
        stamp <- now ;;
        let task := with_updatedAt task stamp in
        save_tasks (seen ++ task :: rest') ;;
        echo (lit "Task " ++ repr_int task_id ++ lit " marked as " ++ new_status) ;;
        ret true
      else status_scan task_id new_status (seen ++ [task]) rest'
  end.

Definition _update_task_status (task_id : Z) (new_status : str) : prog unit :=
  tasks <- load_tasks ;;
  found <- status_scan task_id new_status [] tasks ;;
  if found : bool then ret tt
  else echo_err (lit "Task " ++ repr_int task_id ++ lit " not found").

Definition mark_done (task_id : Z) : prog unit :=
  _update_task_status task_id (lit "done").

Definition mark_in_progress (task_id : Z) : prog unit :=
  _update_task_status task_id (lit "in-progress").

(** ** The command line *)

(** The choices of the argument of [list]. *)
Inductive choice : Type := All | Done | Todo | InProgress.

Definition choice_name (c : choice) : str :=
  match c with
  | All => lit "all"
  | Done => lit "done"
  | Todo => lit "todo"
  | InProgress => lit "in-progress"
  end.

(** A command line that click has parsed. *)
Inductive command : Type :=
| Add (description : str)
| Update (task_id : Z) (description : str)
| Delete (task_id : Z)
| List (filter_by : choice)
| MarkDone (task_id : Z)
| MarkInProgress (task_id : Z).

Definition cli (c : command) : prog unit :=
  match c with
  | Add d => add d
  | Update i d => update i d
  | Delete i => delete i
  | List f => list_tasks (choice_name f)
  | MarkDone i => mark_done i
  | MarkInProgress i => mark_in_progress i
  end.

(** The exit code click ends the process with: 0 when the command returns,
    2 for a usage error, 1 for another [ClickException]. *)
Definition exit_code {A} (c : completion A) : option Z :=
  match c with
  | Returns _ => Some 0%Z
  | Raises (BadParameter _) => Some 2%Z
  | Raises (ClickException _) => Some 1%Z
  | Unmodelled => None
  end.

(** A session: commands run one after the other, each in the world the
    previous one left. *)
Fixpoint run_all (cs : list command) (w : World) : World :=
  match cs with
  | [] => w
  | c :: cs' => run_all cs' (snd (cli c w))
  end.

(** ** The description as the specification words it *)

(** Every run of whitespace becomes one space; [in_run] tells that the
    previous character was whitespace. *)
Fixpoint collapse_runs (in_run : bool) (s : str) : str :=
  match s with
  | [] => []
  | c :: s' =>
      if isspace c then
        if in_run then collapse_runs true s' else 32%N :: collapse_runs true s'
      else c :: collapse_runs false s'
  end.

(** Whitespace at the start is dropped. *)
Fixpoint ltrim (s : str) : str :=
  match s with
  | [] => []
  | c :: s' => if isspace c then ltrim s' else s
  end.

(** Whitespace at the end is dropped. *)
Fixpoint rtrim (s : str) : str :=
  match s with
  | [] => []
  | c :: s' =>
      match rtrim s' with
      | [] => if isspace c then [] else [c]
      | r => c :: r
      end
  end.

(** [normalizeDescription] of the specification, before its two checks. *)
Definition normalizeDescription (raw : str) : str :=
  rtrim (ltrim (collapse_runs false raw)).

(** The two failures of [validate_description]. *)
Definition empty_description : exn :=
  BadParameter (lit "Task description cannot be empty").
Definition too_long_description : exn :=
  BadParameter (lit "Task description is too long").

(** ** Strings that survive a dump *)

(** [json.load] joins an escaped high surrogate and an escaped low surrogate
    that follows it into one character.  A string comes back as it was
    dumped when its characters are code points and no high surrogate stands
    just before a low one; a text that was decoded has no high surrogate at
    all, and neither has a string that [json.load] read from such a text
    next to a low one. *)
Fixpoint json_safe (s : str) : bool :=
  match s with
  | [] => true
  | c :: s' =>
      (c <? 1114112)%N
      && match s' with
         | d :: _ => negb (is_high_surrogate c && is_low_surrogate d)
         | [] => true
         end
      && json_safe s'
  end.

(** What may follow a number in a dump: the end of the text, a comma or a
    line break. *)
Definition ends_value (rest : str) : Prop :=
  match rest with
  | [] => True
  | c :: _ => c = 44%N \/ c = 10%N
  end.

(** The values that come back from a dump as they were: no float, strings
    that survive, and in a dict keys that are distinct. *)
Inductive dumpable : json -> Prop :=
| dumpable_null : dumpable JNull
| dumpable_bool (b : bool) : dumpable (JBool b)
| dumpable_int (z : Z) : dumpable (JInt z)
| dumpable_str (s : str) : json_safe s = true -> dumpable (JStr s)
| dumpable_arr (items : list json) :
    Forall dumpable items -> dumpable (JArr items)
| dumpable_obj (members : list (str * json)) :
    NoDup (map fst members) ->
    Forall (fun kv => json_safe (fst kv) = true /\ dumpable (snd kv)) members ->
    dumpable (JObj members).

(** The text does not go on with the escape of a low surrogate. *)
Definition no_low_escape (x : str) : Prop :=
  forall g1 g2 g3 g4 s4,
    x = 92%N :: 117%N :: g1 :: g2 :: g3 :: g4 :: s4 ->
    exists v, hex4 g1 g2 g3 g4 = Some v /\ is_low_surrogate v = false.

(** The digits of a number that is not 0 do not start with 0. *)
Definition leading_nonzero (u : uint) : Prop :=
  match u with
  | Nil | D0 _ => False
  | _ => True
  end.

(** The first character of a dumped value: not whitespace, and none of the
    closing bracket, the closing brace and the byte order mark. *)
Definition value_head (c : N) : Prop :=
  is_ws c = false /\ expect 93 [c] = None /\ expect 125 [c] = None
  /\ expect 65279 [c] = None.

(** What the loops need of the scanner of items: it reads back a dumped
    item, whatever value may follow. *)
Definition reads_back (scan : str -> scanned json) (level : nat) (x : json)
  : Prop :=
  (exists c tl, encode level x = c :: tl /\ value_head c)
  /\ forall rest, ends_value rest -> scan (encode level x ++ rest) = Ok (x, rest).

(** ** Induction on JSON values *)

(** The induction principle that reaches the items of an array and the
    values of a dict. *)
Section JsonInduction.
Variable P : json -> Prop.
Hypothesis Hnull : P JNull.
Hypothesis Hbool : forall b, P (JBool b).
Hypothesis Hint : forall z, P (JInt z).
Hypothesis Hfloat : forall x, P (JFloat x).
Hypothesis Hstr : forall s, P (JStr s).
Hypothesis Harr : forall items, Forall P items -> P (JArr items).
Hypothesis Hobj :
  forall members, Forall (fun kv => P (snd kv)) members -> P (JObj members).

Fixpoint json_induction (v : json) : P v :=
  match v with
  | JNull => Hnull
  | JBool b => Hbool b
  | JInt z => Hint z
  | JFloat x => Hfloat x
  | JStr s => Hstr s
  | JArr items =>
      Harr ((fix all (l : list json) : Forall P l :=
               match l with
               | [] => Forall_nil P
               | x :: l' => Forall_cons x (json_induction x) (all l')
               end) items)
  | JObj members =>
      Hobj ((fix all (l : list (str * json))
               : Forall (fun kv => P (snd kv)) l :=
               match l with
               | [] => Forall_nil _
               | kv :: l' =>
                   Forall_cons (P := fun kv => P (snd kv)) kv
                     (json_induction (snd kv)) (all l')
               end) members)
  end.
End JsonInduction.

(** ** Stores and collections *)

(** A task whose texts survive a dump. *)
Definition storable (t : Task) : Prop :=
  json_safe (description t) = true /\ json_safe (status t) = true
  /\ json_safe (createdAt t) = true /\ json_safe (updatedAt t) = true.

(** A text as decoding gives it, from the command line or from a file: code
    points, none of them a high surrogate (a byte that cannot be decoded
    comes as a low surrogate). *)
Definition is_text (s : str) : bool :=
  forallb (fun c => (c <? 1114112)%N && negb (is_high_surrogate c)) s.

(** The three statuses of the data model. *)
Definition statuses : list str := [lit "todo"; lit "in-progress"; lit "done"].

(** A well-formed task of the data model: a positive id, one of the three
    statuses, and texts for the description and the two timestamps. *)
Definition well_formed (t : Task) : Prop :=
  (0 < id t)%Z /\ In (status t) statuses
  /\ is_text (description t) = true
  /\ is_text (createdAt t) = true /\ is_text (updatedAt t) = true.

(** The store of a world holds a collection: [load_tasks] returns it. *)
Definition holds (w : World) (tasks : list Task) : Prop :=
  fst (load_tasks w) = Returns tasks.

(** The file [save_tasks] leaves. *)
Definition written (tasks : list Task) : file_state :=
  Contents (json_dumps (tasks_to_json tasks)).

(** [kept P tasks tasks']: [tasks'] is [tasks] without the tasks that fail
    [P], the others in their order. *)
Inductive kept (P : Task -> Prop) : list Task -> list Task -> Prop :=
| kept_nil : kept P [] []
| kept_in (t : Task) (tasks tasks' : list Task) :
    P t -> kept P tasks tasks' -> kept P (t :: tasks) (t :: tasks')
| kept_out (t : Task) (tasks tasks' : list Task) :
    ~ P t -> kept P tasks tasks' -> kept P (t :: tasks) tasks'.

(** The ids of the tasks in the store. *)
Definition ids_of (w : World) : list Z :=
  match fst (load_tasks w) with
  | Returns tasks => map id tasks
  | _ => []
  end.

(** The largest id seen in the store over a session, as the specification
    reads it for the next id: the largest id ever present. *)
Fixpoint highest_ever (cs : list command) (w : World) : Z :=
  match cs with
  | [] => max_default0 (ids_of w)
  | c :: cs' => Z.max (max_default0 (ids_of w)) (highest_ever cs' (snd (cli c w)))
  end.

(** The commands of a session of adds and deletes. *)
Definition add_or_delete (c : command) : Prop :=
  match c with
  | Add _ | Delete _ => True
  | _ => False
  end.

(** The world a command leaves: the file it left, the number of times it
    read the clock and the lines it echoed. *)
Definition world_after (w : World) (file : file_state) (readings : nat)
    (out err : list str) : World :=
  {| tasks_file := file; clock := clock w; ticks := readings + ticks w;
     stdout := stdout w ++ out; stderr := stderr w ++ err |}.

(** Every reading of the clock is a text. *)
Definition clock_texts (w : World) : Prop :=
  forall n, is_text (clock w n) = true.

(** The texts a command brings are texts. *)
Definition command_texts (c : command) : Prop :=
  match c with
  | Add d | Update _ d => is_text d = true
  | _ => True
  end.

(** A world for examples: no tasks file, and a clock that advances by a
    microsecond at each reading. *)
Definition world0 : World :=
  {| tasks_file := Missing;
     clock := fun n => lit "2024-05-01T09:30:00.00000" ++ repr_int (Z.of_nat n);
     ticks := 0; stdout := []; stderr := [] |}.

(** ** The tasks the commands leave *)

(** The task [add_task] builds. *)
Definition new_task (w : World) (tasks : list Task) (description : str) : Task :=
  {| id := max_default0 (map id tasks) + 1; description := description;
     status := lit "todo";
     createdAt := clock w (ticks w); updatedAt := clock w (S (ticks w)) |}.

(** The task an update leaves. *)
Definition updated (t : Task) (description stamp : str) : Task :=
  {| id := id t; description := description; status := status t;
     createdAt := createdAt t; updatedAt := stamp |}.

(** The task a change of status leaves. *)
Definition marked (t : Task) (new_status stamp : str) : Task :=
  {| id := id t; description := description t; status := new_status;
     createdAt := createdAt t; updatedAt := stamp |}.

(** ** The bound of the scanner *)

(** A scan that did not run out of fuel and that, when it read something,
    left fewer than [bound] characters. *)
Definition consumes {A : Type} (bound : nat) (r : scanned A) : Prop :=
  match r with
  | Ok (_, rest) => length rest < bound
  | Raise (ScanError _ _) => True
  | Raise OutOfFuel => False
  end.

(** What a session keeps: the store holds a collection of tasks whose texts
    survive a dump and whose ids are distinct. *)
Definition sound (w : World) (tasks : list Task) : Prop :=
  holds w tasks /\ Forall storable tasks /\ NoDup (map id tasks).

(** ** Worlds for examples *)

(** A store with two tasks, the first in progress. *)
Definition two_tasks : list Task :=
  [ {| id := 1; description := lit "Buy milk"; status := lit "in-progress";
       createdAt := lit "2024-05-01T09:00:00"; updatedAt := lit "2024-05-01T09:10:00" |};
    {| id := 2; description := lit "Call Ann"; status := lit "todo";
       createdAt := lit "2024-05-01T09:20:00"; updatedAt := lit "2024-05-01T09:20:00" |} ].

Definition world2 : World :=
  {| tasks_file := written two_tasks; clock := clock world0;
     ticks := 0; stdout := []; stderr := [] |}.

(** A store where the id 1 is borne by two tasks. *)
Definition task_ann : Task :=
  {| id := 2; description := lit "Call Ann"; status := lit "todo";
     createdAt := lit "2024-05-01T09:20:00"; updatedAt := lit "2024-05-01T09:20:00" |}.
Definition task_milk : Task :=
  {| id := 1; description := lit "Buy milk"; status := lit "todo";
     createdAt := lit "2024-05-01T09:00:00"; updatedAt := lit "2024-05-01T09:00:00" |}.
Definition task_bread : Task :=
  {| id := 1; description := lit "Buy bread"; status := lit "todo";
     createdAt := lit "2024-05-01T09:05:00"; updatedAt := lit "2024-05-01T09:05:00" |}.

Definition duplicated : list Task := [task_ann; task_milk; task_bread].

Definition world_duplicated : World :=
  {| tasks_file := written duplicated; clock := clock world0;
     ticks := 0; stdout := []; stderr := [] |}.

(** A world whose tasks file does not parse. *)
Definition world_corrupted : World :=
  {| tasks_file := Contents (lit "{invalid json}"); clock := clock world0;
     ticks := 0; stdout := []; stderr := [] |}.

(** A world whose tasks file holds the empty array, as [save_tasks] leaves
    it when the last task is deleted. *)
Definition world_emptied : World :=
  {| tasks_file := Contents (lit "[]"); clock := clock world0;
     ticks := 0; stdout := []; stderr := [] |}.

(** ** Tactics *)

(** Runs the primitive effects of a command. *)
Ltac run :=
  cbn [bind ret raise now echo echo_err save_tasks fst snd
       tasks_file clock ticks stdout stderr].

(** ** Words and whitespace *)

(** A word of [split]: not empty, and without whitespace. *)
Definition is_word (w : str) : Prop :=
  w <> [] /\ forallb (fun c => negb (isspace c)) w = true.

(** The characters that [split] keeps. *)
Definition not_space (c : N) : bool := negb (isspace c).

(** ** What a command leaves of a collection *)

(** An add whose description [validate_description] refuses. *)
Definition refused (c : command) : bool :=
  match c with
  | Add raw =>
      match validate_description raw with
      | Ok _ => false
      | Raise _ => true
      end
  | _ => false
  end.

(** The id a command looks for in the loop [for task in tasks]. *)
Definition target (c : command) : option Z :=
  match c with
  | Update i _ | MarkDone i | MarkInProgress i => Some i
  | _ => None
  end.

(** The status [mark_done] and [mark_in_progress] pass to
    [_update_task_status]. *)
Definition new_status (c : command) : option str :=
  match c with
  | MarkDone _ => Some (lit "done")
  | MarkInProgress _ => Some (lit "in-progress")
  | _ => None
  end.

(** [leaves w tasks c tasks']: run in the world [w] on a store that holds
    [tasks], the command [c] leaves a store that holds [tasks']. *)
Inductive leaves (w : World) (tasks : list Task) : command -> list Task -> Prop :=
| leaves_add (raw valid : str) :
    validate_description raw = Ok valid ->
    leaves w tasks (Add raw) (tasks ++ [new_task w tasks valid])
| leaves_refused (raw : str) (e : exn) :
    validate_description raw = Raise e -> leaves w tasks (Add raw) tasks
| leaves_update (i : Z) (d : str) (pre : list Task) (t : Task) (post : list Task) :
    tasks = pre ++ t :: post -> id t = i ->
    Forall (fun p => id p <> i) pre ->
    leaves w tasks (Update i d)
      (pre ++ updated t d (clock w (ticks w)) :: post)
| leaves_mark (c : command) (i : Z) (s : str)
    (pre : list Task) (t : Task) (post : list Task) :
    target c = Some i -> new_status c = Some s ->
    tasks = pre ++ t :: post -> id t = i ->
    Forall (fun p => id p <> i) pre ->
    leaves w tasks c (pre ++ marked t s (clock w (ticks w)) :: post)
| leaves_miss (c : command) (i : Z) :
    target c = Some i -> Forall (fun t => id t <> i) tasks ->
    leaves w tasks c tasks
| leaves_delete (i : Z) :
    leaves w tasks (Delete i) (filter (fun t => negb (id t =? i)%Z) tasks)
| leaves_list (f : choice) : leaves w tasks (List f) tasks.

(** Ids that grow from one task to the next, all of them above [low]. *)
Fixpoint ascending (low : Z) (ids : list Z) : Prop :=
  match ids with
  | [] => True
  | i :: ids' => (low < i)%Z /\ ascending i ids'
  end.

(** The commands that neither add nor delete. *)
Definition edits (c : command) : Prop :=
  match c with
  | Add _ | Delete _ => False
  | _ => True
  end.

(** The characters of a plain ASCII text file: the line feed and the
    characters from space to tilde. *)
Definition plain (c : N) : bool :=
  ((c =? 10) || ((32 <=? c) && (c <=? 126)))%N.

(** A world whose tasks file cannot be read. *)
Definition world_unreadable : World :=
  {| tasks_file := Unreadable (lit "[Errno 13] Permission denied: 'tasks.json'");
     clock := clock world0; ticks := 0; stdout := []; stderr := [] |}.

(** * Properties *)


(** ** Splitting and joining *)

Lemma join_cons (sep w : str) (ws : list str) :
  join sep (w :: ws) = w ++ match ws with [] => [] | _ => sep ++ join sep ws end.
Proof. destruct ws; simpl; [now rewrite app_nil_r | reflexivity]. Qed.

Lemma split_from_open (s : str) :
  exists h t, split_from (Some []) s = h :: t
              /\ forall w, split_from (Some w) s = (w ++ h) :: t.
Proof.
  induction s as [|c s IH]; simpl.
  - exists [], []. split; [reflexivity|]. intros w. now rewrite app_nil_r.
  - destruct (isspace c).
    + exists [], (split_from None s). split; [reflexivity|].
      intros w. now rewrite app_nil_r.
    + destruct IH as (h & t & _ & IH).
      exists (c :: h), t. split.
      * rewrite (IH [c]). reflexivity.
      * intros w. rewrite (IH (w ++ [c])). now rewrite <- app_assoc.
Qed.

Lemma join_split_open (w s : str) :
  join (lit " ") (split_from (Some w) s)
  = w ++ join (lit " ") (split_from (Some []) s).
Proof.
  destruct (split_from_open s) as (h & t & E0 & E).
  rewrite E, E0, !join_cons. now rewrite app_assoc.
Qed.

Lemma split_words_nonempty (s : str) :
  Forall (fun w => w <> []) (split_from None s)
  /\ forall w, w <> [] -> Forall (fun w => w <> []) (split_from (Some w) s).
Proof.
  induction s as [|c s [IHn IHo]]; simpl.
  - split; [constructor|]. intros w Hw. now constructor.
  - destruct (isspace c).
    + split; [exact IHn|]. intros w Hw. now constructor.
    + split.
      * apply IHo. discriminate.
      * intros w Hw. apply IHo. now destruct w.
Qed.

Lemma join_nonempty (sep : str) (ws : list str) :
  Forall (fun w => w <> []) ws -> ws <> [] -> join sep ws <> [].
Proof.
  intros H Hne. destruct H as [|w ws Hw _]; [contradiction|].
  rewrite join_cons. now destruct w.
Qed.

Lemma collapse_true_head (s : str) :
  match collapse_runs true s with [] => True | c :: _ => isspace c = false end.
Proof.
  induction s as [|c s IH]; simpl; [exact I|].
  destruct (isspace c) eqn:E; [exact IH | exact E].
Qed.

Lemma ltrim_collapse (s : str) :
  ltrim (collapse_runs false s) = collapse_runs true s.
Proof.
  assert (H : forall t, match t with [] => True | c :: _ => isspace c = false end
                        -> ltrim t = t).
  { intros [|c t]; simpl; [reflexivity|]. now intros ->. }
  destruct s as [|c s]; simpl; [reflexivity|].
  destruct (isspace c) eqn:E; simpl.
  - apply H, collapse_true_head.
  - now rewrite E.
Qed.

Lemma join_split_collapse (s : str) :
  join (lit " ") (split_from None s) = rtrim (collapse_runs true s)
  /\ join (lit " ") (split_from (Some []) s) = rtrim (collapse_runs false s).
Proof.
  induction s as [|c s [IHn IHo]]; [split; reflexivity|].
  cbn [split_from collapse_runs].
  destruct (isspace c) eqn:E.
  - split; [exact IHn|].
    rewrite join_cons. cbn [rtrim app]. rewrite <- IHn.
    change (isspace 32) with true.
    destruct (split_from None s) as [|w ws] eqn:Es; [reflexivity|].
    destruct (join (lit " ") (w :: ws)) eqn:Ej; [|reflexivity].
    exfalso. revert Ej. apply join_nonempty; [|discriminate].
    rewrite <- Es. apply split_words_nonempty.
  - assert (Ho : join (lit " ") (split_from (Some ([] ++ [c])) s)
                 = rtrim (c :: collapse_runs false s)).
    { rewrite join_split_open, IHo. cbn [rtrim app]. rewrite E.
      now destruct (rtrim (collapse_runs false s)). }
    split; exact Ho.
Qed.

(** [' '.join(description.split())] is the normalization the specification
    describes. *)
Lemma join_split_normalizes (raw : str) :
  join (lit " ") (split raw) = normalizeDescription raw.
Proof.
  unfold normalizeDescription, split. rewrite ltrim_collapse.
  apply join_split_collapse.
Qed.

Lemma split_whitespace (s : str) :
  forallb isspace s = true -> split_from None s = [].
Proof.
  induction s as [|c s IH]; simpl; [reflexivity|].
  destruct (isspace c); [exact IH | discriminate].
Qed.

Lemma split_from_no_space (s : str) (w : str) :
  forallb (fun c => negb (isspace c)) s = true ->
  split_from (Some w) s = [w ++ s].
Proof.
  revert w. induction s as [|c s IH]; simpl; intros w.
  - now rewrite app_nil_r.
  - destruct (isspace c); [discriminate|]. intros H. simpl in H.
    rewrite IH by exact H. now rewrite <- app_assoc.
Qed.

(** C3. [validate_description] normalizes its input as the specification
    says (whitespace runs collapsed to one space, ends trimmed); it fails as
    empty exactly when the normalized text is empty, as too long exactly
    when the normalized text has more than 500 characters, and returns the
    normalized text otherwise.  So 500 characters pass, 501 do not, and an
    input of whitespace only fails as empty. *)
Theorem validate_description_spec (raw : str) :
  let normalized := normalizeDescription raw in
  (validate_description raw = Raise empty_description <-> normalized = [])
  /\ (validate_description raw = Raise too_long_description
      <-> 500 < length normalized)
  /\ (validate_description raw = Ok normalized
      <-> normalized <> [] /\ length normalized <= 500)
  /\ (length normalized = 500 -> validate_description raw = Ok normalized)
  /\ (length normalized = 501
      -> validate_description raw = Raise too_long_description)
  /\ (forallb isspace raw = true
      -> validate_description raw = Raise empty_description).
Proof.
  intros normalized.
  assert (Hw : forallb isspace raw = true -> normalized = []).
  { intros H. unfold normalized. rewrite <- join_split_normalizes.
    unfold split. now rewrite split_whitespace. }
  unfold validate_description. rewrite join_split_normalizes.
  fold normalized. clearbody normalized.
  destruct normalized as [|c n].
  - cbn. repeat split; intros; try easy; try lia.
    all: try (destruct H; congruence).
  - cbn [length Nat.eqb].
    destruct (500 <? S (length n)) eqn:E;
      [apply Nat.ltb_lt in E | apply Nat.ltb_ge in E].
    + repeat split; intros; try easy; try lia.
      all: try (destruct H; lia).
      specialize (Hw H). discriminate.
    + repeat split; intros; try easy; try lia.
      specialize (Hw H). discriminate.
Qed.

(** ** Hexadecimal escapes *)

Lemma hexval_hexdigit (d : N) : (d < 16)%N -> hexval (hexdigit d) = Some d.
Proof.
  intros H. unfold hexdigit, hexval.
  destruct (d <? 10)%N eqn:E; [apply N.ltb_lt in E | apply N.ltb_ge in E].
  - replace ((48 <=? 48 + d) && (48 + d <=? 57))%N with true.
    + f_equal. lia.
    + symmetry. apply andb_true_iff. split; apply N.leb_le; lia.
  - replace ((48 <=? 87 + d) && (87 + d <=? 57))%N with false.
    + replace ((97 <=? 87 + d) && (87 + d <=? 102))%N with true.
      * f_equal. lia.
      * symmetry. apply andb_true_iff. split; apply N.leb_le; lia.
    + symmetry. apply andb_false_iff. right. apply N.leb_gt. lia.
Qed.

Lemma hex4_u_escape (n : N) :
  (n < 65536)%N ->
  hex4 (hexdigit (n / 4096 mod 16)) (hexdigit (n / 256 mod 16))
       (hexdigit (n / 16 mod 16)) (hexdigit (n mod 16)) = Some n.
Proof.
  intros H. unfold hex4.
  rewrite !hexval_hexdigit by (apply N.mod_lt; discriminate).
  f_equal.
  replace (n / 256)%N with (n / 16 / 16)%N by (now rewrite N.Div0.div_div).
  replace (n / 4096)%N with (n / 16 / 16 / 16)%N by (now rewrite !N.Div0.div_div).
  zify. Z.to_euclidean_division_equations. lia.
Qed.

(** ** Surrogate pairs *)

Lemma lor_shiftl_add (a b n : N) :
  (b < 2 ^ n)%N -> N.lor (N.shiftl a n) b = (a * 2 ^ n + b)%N.
Proof.
  intros Hb.
  rewrite <- N.lxor_lor, <- N.add_nocarry_lxor, N.shiftl_mul_pow2; trivial.
  all: apply N.bits_inj; intros i; rewrite N.land_spec, N.bits_0.
  all: destruct (N.lt_ge_cases i n) as [Hi|Hi].
  all: try (rewrite N.shiftl_spec_low by exact Hi; reflexivity).
  all: rewrite <- (N.mod_small b (2 ^ n)) by exact Hb.
  all: rewrite N.mod_pow2_bits_high by exact Hi; apply andb_false_r.
Qed.

Lemma land_1023 (a : N) : N.land a 1023 = (a mod 1024)%N.
Proof. change 1023%N with (N.ones 10). now rewrite N.land_ones. Qed.

Lemma mod_1024_add (k x : N) :
  (x < 1024)%N -> ((k * 1024 + x) mod 1024 = x)%N.
Proof.
  intros H. rewrite N.add_comm, N.Div0.mod_add. now apply N.mod_small.
Qed.

Lemma lor_high (x : N) : (x < 1024)%N -> N.lor 55296 x = (55296 + x)%N.
Proof.
  intros H. change 55296%N with (N.shiftl 54 10).
  now rewrite lor_shiftl_add.
Qed.

Lemma lor_low (x : N) : (x < 1024)%N -> N.lor 56320 x = (56320 + x)%N.
Proof.
  intros H. change 56320%N with (N.shiftl 55 10).
  now rewrite lor_shiftl_add.
Qed.

Lemma halves_spec (c : N) :
  (65536 <= c < 1114112)%N ->
  high_half c = (55296 + (c - 65536) / 1024)%N
  /\ low_half c = (56320 + (c - 65536) mod 1024)%N.
Proof.
  intros H. unfold high_half, low_half.
  rewrite !land_1023, N.shiftr_div_pow2. change (2 ^ 10)%N with 1024%N.
  assert ((c - 65536) / 1024 < 1024)%N.
  { apply N.Div0.div_lt_upper_bound. lia. }
  rewrite (N.mod_small ((c - 65536) / 1024)) by assumption.
  rewrite lor_high by assumption.
  rewrite lor_low by (apply N.mod_lt; discriminate).
  split; reflexivity.
Qed.

Lemma halves_are_surrogates (c : N) :
  (65536 <= c < 1114112)%N ->
  (high_half c < 65536)%N /\ (low_half c < 65536)%N
  /\ is_high_surrogate (high_half c) = true
  /\ is_low_surrogate (high_half c) = false
  /\ is_low_surrogate (low_half c) = true.
Proof.
  intros H. destruct (halves_spec H) as [-> ->].
  assert ((c - 65536) / 1024 < 1024)%N.
  { apply N.Div0.div_lt_upper_bound. lia. }
  assert ((c - 65536) mod 1024 < 1024)%N by (apply N.mod_lt; discriminate).
  unfold is_high_surrogate, is_low_surrogate.
  set (q := ((c - 65536) / 1024)%N) in *. set (r := ((c - 65536) mod 1024)%N) in *.
  clearbody q r.
  repeat split; try lia.
  - apply andb_true_iff; split; apply N.leb_le; lia.
  - apply andb_false_iff; left; apply N.leb_gt; lia.
  - apply andb_true_iff; split; apply N.leb_le; lia.
Qed.

Lemma join_halves (c : N) :
  (65536 <= c < 1114112)%N ->
  join_surrogates (high_half c) (low_half c) = c.
Proof.
  intros H. destruct (halves_spec H) as [-> ->].
  assert (Hq : ((c - 65536) / 1024 < 1024)%N).
  { apply N.Div0.div_lt_upper_bound. lia. }
  assert (Hr : ((c - 65536) mod 1024 < 1024)%N) by (apply N.mod_lt; discriminate).
  unfold join_surrogates. rewrite !land_1023.
  change 55296%N with (54 * 1024)%N. change 56320%N with (55 * 1024)%N.
  rewrite !mod_1024_add by assumption.
  rewrite lor_shiftl_add by exact Hr. change (2 ^ 10)%N with 1024%N.
  pose proof (N.div_mod (c - 65536) 1024).
  set (q := ((c - 65536) / 1024)%N) in *. set (r := ((c - 65536) mod 1024)%N) in *.
  clearbody q r. lia.
Qed.

(** ** Strings: [scanstring] reads back what [encode_basestring_ascii] wrote *)

Lemma scanstring_u_escape (b : nat) (n : N) (x : str) :
  (n < 65536)%N -> x <> [] ->
  (is_high_surrogate n = true -> no_low_escape x) ->
  scanstring b (u_escape n ++ x) = prepend n (scanstring b x).
Proof.
  intros Hn Hne Hx. unfold u_escape.
  destruct x as [|c1 x]; [contradiction|].
  cbn [app scanstring N.eqb Pos.eqb].
  rewrite (hex4_u_escape Hn).
  destruct (is_high_surrogate n) eqn:Eh; [|reflexivity].
  specialize (Hx eq_refl).
  destruct x as [|c2 [|g1 [|g2 [|g3 [|g4 [|c7 s5]]]]]]; try reflexivity.
  destruct ((c1 =? 92) && (c2 =? 117))%N eqn:E; [|reflexivity].
  apply andb_true_iff in E. destruct E as [E1 E2].
  apply N.eqb_eq in E1, E2. subst c1 c2.
  destruct (Hx _ _ _ _ _ eq_refl) as (v & -> & ->). reflexivity.
Qed.

Lemma scanstring_pair (b : nat) (c : N) (x : str) :
  (65536 <= c < 1114112)%N -> x <> [] ->
  scanstring b (u_escape (high_half c) ++ u_escape (low_half c) ++ x)
  = prepend c (scanstring b x).
Proof.
  intros Hc Hne.
  destruct (halves_are_surrogates Hc) as (Hh & Hl & Ehh & _ & Ell).
  unfold u_escape. destruct x as [|c1 x]; [contradiction|].
  cbn [app scanstring N.eqb Pos.eqb].
  rewrite (hex4_u_escape Hh), Ehh.
  cbn [N.eqb Pos.eqb andb].
  rewrite (hex4_u_escape Hl), Ell.
  now rewrite join_halves.
Qed.

Lemma escape_char_spec (c : N) :
  (c < 1114112)%N ->
  (exists e, escape_char c = [92%N; e] /\ backslash e = Some c /\ e <> 117%N)
  \/ (escape_char c = [c] /\ c <> 34%N /\ c <> 92%N /\ (32 <= c)%N)
  \/ (escape_char c = u_escape c /\ (c < 65536)%N)
  \/ (escape_char c = u_escape (high_half c) ++ u_escape (low_half c)
      /\ (65536 <= c)%N).
Proof.
  intros Hc. unfold escape_char.
  repeat match goal with
         | |- context [(c =? ?k)%N] =>
             destruct (N.eqb_spec c k);
             [subst c; left; eexists; split; [reflexivity|];
              split; [reflexivity | discriminate]|]
         end.
  destruct ((32 <=? c) && (c <=? 126))%N eqn:E.
  - apply andb_true_iff in E. destruct E as [E _]. apply N.leb_le in E.
    right; left. repeat split; assumption || reflexivity.
  - destruct (c <? 65536)%N eqn:E2.
    + apply N.ltb_lt in E2. right; right; left. split; [reflexivity | exact E2].
    + apply N.ltb_ge in E2. right; right; right. split; [reflexivity | exact E2].
Qed.

Lemma no_low_escape_after (s rest : str) :
  match s with d :: _ => (d < 1114112)%N /\ is_low_surrogate d = false
             | [] => True end ->
  no_low_escape (flat_map escape_char s ++ 34%N :: rest).
Proof.
  intros Hs g1 g2 g3 g4 s4 E.
  destruct s as [|d s]; [discriminate|].
  destruct Hs as [Hd Hlow]. cbn [flat_map] in E. rewrite <- app_assoc in E.
  destruct (escape_char_spec Hd)
    as [(e & Ee & _ & He) | [(Ee & _ & H92 & _) | [(Ee & Hd') | (Ee & Hd')]]];
    rewrite Ee in E.
  - injection E as E _. congruence.
  - injection E as E _. congruence.
  - unfold u_escape in E. injection E as <- <- <- <- _.
    exists d. split; [now apply hex4_u_escape | exact Hlow].
  - assert (Hc : (65536 <= d < 1114112)%N) by lia.
    destruct (halves_are_surrogates Hc) as (Hh & _ & _ & Ehl & _).
    unfold u_escape in E. cbn [app] in E. injection E as <- <- <- <- _.
    exists (high_half d). split; [now apply hex4_u_escape | exact Ehl].
Qed.

Lemma scanstring_escaped (b : nat) (s rest : str) :
  json_safe s = true ->
  scanstring b (flat_map escape_char s ++ 34%N :: rest) = Ok (s, rest).
Proof.
  induction s as [|c s IH]; intros Hs; [reflexivity|].
  cbn [json_safe] in Hs.
  apply andb_true_iff in Hs. destruct Hs as [Hs Hs'].
  apply andb_true_iff in Hs. destruct Hs as [Hc Hpair].
  apply N.ltb_lt in Hc. specialize (IH Hs').
  cbn [flat_map]. rewrite <- app_assoc.
  assert (Hne : flat_map escape_char s ++ 34%N :: rest <> []).
  { intros E. apply app_eq_nil in E. destruct E as [_ E]. discriminate E. }
  destruct (escape_char_spec Hc)
    as [(e & -> & Hb & He) | [(-> & H34 & H92 & H32) | [(-> & Hc') | (-> & Hc')]]].
  - cbn [app scanstring N.eqb Pos.eqb].
    apply N.eqb_neq in He. rewrite He, Hb, IH. reflexivity.
  - cbn [app scanstring].
    apply N.eqb_neq in H34, H92. rewrite H34, H92.
    replace (c <=? 31)%N with false by (symmetry; apply N.leb_gt; lia).
    rewrite IH. reflexivity.
  - rewrite scanstring_u_escape; [now rewrite IH | exact Hc' | exact Hne |].
    intros Hh. apply no_low_escape_after.
    destruct s as [|d s]; [exact I|].
    cbn [json_safe] in Hs'. rewrite Hh in Hpair.
    apply andb_true_iff in Hs'. destruct Hs' as [Hs' _].
    apply andb_true_iff in Hs'. destruct Hs' as [Hd _].
    apply N.ltb_lt in Hd. split; [exact Hd|].
    now destruct (is_low_surrogate d).
  - rewrite <- app_assoc, scanstring_pair by (lia || exact Hne). now rewrite IH.
Qed.

(** ** Numbers: [match_number] reads back what [int.__repr__] wrote *)

Lemma scan_digits_digits (u : uint) (rest : str) :
  ends_value rest -> scan_digits (digits u ++ rest) = (u, rest).
Proof.
  intros Hr.
  induction u; cbn [digits app scan_digits digit_of N.eqb Pos.eqb];
    try (rewrite IHu; reflexivity).
  destruct rest as [|c rest]; [reflexivity|].
  destruct Hr as [-> | ->]; reflexivity.
Qed.

Lemma skip_frac_ends (rest : str) : ends_value rest -> skip_frac rest = None.
Proof.
  destruct rest as [|c [|d rest]]; try reflexivity.
  intros [-> | ->]; reflexivity.
Qed.

Lemma skip_exp_ends (rest : str) : ends_value rest -> skip_exp rest = None.
Proof.
  destruct rest as [|c rest]; [reflexivity|].
  intros [-> | ->]; reflexivity.
Qed.

Lemma nzhead_fixed (u : uint) :
  nzhead u = u -> u <> Nil -> leading_nonzero u.
Proof.
  intros E Hn. destruct u; try exact I; [contradiction|].
  exfalso. exact (nzhead_nonzero _ _ E).
Qed.

Lemma to_int_shape (z : Z) :
  Z.to_int z = Pos (D0 Nil)
  \/ exists u, leading_nonzero u /\ (Z.to_int z = Pos u \/ Z.to_int z = Neg u).
Proof.
  pose proof (DecimalZ.to_of (Z.to_int z)) as E.
  rewrite DecimalZ.of_to in E.
  destruct (Z.to_int z) as [u|u]; cbn [norm] in E.
  - injection E as E. unfold unorm in E.
    destruct (nzhead u) eqn:En; try (right; exists u; split;
      [apply nzhead_fixed; congruence | now left]).
    left. now subst u.
  - destruct (nzhead u) eqn:En; try discriminate.
    all: right; exists u; split; [apply nzhead_fixed; congruence | now right].
Qed.

Lemma match_number_nonzero (negative : bool) (u : uint) (rest : str) :
  leading_nonzero u -> ends_value rest ->
  match_number ((if negative then [45%N] else []) ++ digits u ++ rest)
  = Ok (JInt (Z.of_int (if negative then Neg u else Pos u)), rest).
Proof.
  intros Hu Hr.
  pose proof (scan_digits_digits u rest Hr) as Es.
  pose proof (skip_frac_ends _ Hr) as Ef.
  pose proof (skip_exp_ends _ Hr) as Ee.
  destruct u; try contradiction; destruct negative;
    cbn [digits app] in *; unfold match_number;
    cbn [N.eqb Pos.eqb is_digit digit_of];
    rewrite Es, Ef, Ee; reflexivity.
Qed.

Lemma match_number_repr_int (z : Z) (rest : str) :
  ends_value rest -> match_number (repr_int z ++ rest) = Ok (JInt z, rest).
Proof.
  intros Hr. unfold repr_int.
  rewrite <- (DecimalZ.of_to z) at 2.
  destruct (to_int_shape z) as [E | (u & Hu & [E | E])]; rewrite E.
  - cbn [digits app]. unfold match_number. cbn [N.eqb Pos.eqb].
    now rewrite (skip_frac_ends _ Hr), (skip_exp_ends _ Hr).
  - apply (match_number_nonzero false u rest Hu Hr).
  - apply (match_number_nonzero true u rest Hu Hr).
Qed.

(** ** Whitespace and the head of a dumped value *)

Lemma skip_ws_indent (level : nat) (c : N) (tl : str) :
  is_ws c = false -> skip_ws (newline_indent level ++ c :: tl) = c :: tl.
Proof.
  intros Hc. unfold newline_indent. cbn [app skip_ws is_ws N.eqb Pos.eqb orb].
  induction (2 * level) as [|n IH]; cbn [repeat app skip_ws].
  - now rewrite Hc.
  - exact IH.
Qed.

Lemma skip_ws_head (c : N) (tl : str) :
  is_ws c = false -> skip_ws (c :: tl) = c :: tl.
Proof. intros Hc. cbn [skip_ws]. now rewrite Hc. Qed.

Lemma digits_head (u : uint) :
  u <> Nil -> exists c tl, digits u = c :: tl /\ value_head c.
Proof.
  destruct u; [contradiction| ..]; intros _;
    eexists; eexists; (split; [reflexivity|]); repeat split.
Qed.

Lemma repr_int_head (z : Z) :
  exists c tl, repr_int z = c :: tl /\ value_head c.
Proof.
  unfold repr_int.
  destruct (to_int_shape z) as [E | (u & Hu & [E | E])]; rewrite E.
  - eexists; eexists; (split; [reflexivity|]); repeat split.
  - apply digits_head. now destruct u.
  - eexists; eexists; (split; [reflexivity|]); repeat split.
Qed.

Lemma encode_head (level : nat) (v : json) :
  dumpable v -> exists c tl, encode level v = c :: tl /\ value_head c.
Proof.
  intros H. destruct H as [|b|z|s Hs|items Hi|members Hn Hm].
  - eexists; eexists; (split; [reflexivity|]); repeat split.
  - destruct b; eexists; eexists; (split; [reflexivity|]); repeat split.
  - apply repr_int_head.
  - eexists; eexists; (split; [reflexivity|]); repeat split.
  - destruct items; eexists; eexists; (split; [reflexivity|]); repeat split.
  - destruct members; eexists; eexists; (split; [reflexivity|]); repeat split.
Qed.

(** ** Arrays and dicts *)

Lemma ends_value_indent (level : nat) (s : str) :
  ends_value (newline_indent level ++ s).
Proof. now right. Qed.

Lemma ends_value_comma (s : str) : ends_value (44%N :: s).
Proof. now left. Qed.

Lemma parse_items_dump (scan : str -> scanned json) (level : nat)
    (items : list json) (rest : str) :
  items <> [] ->
  Forall (reads_back scan (S level)) items ->
  forall n, length items <= n ->
  parse_items scan n
    (join (item_sep (S level)) (map (encode (S level)) items)
       ++ newline_indent level ++ 93%N :: rest)
  = Ok (items, rest).
Proof.
  intros Hne Hall. induction Hall as [|x items [_ Hx] Hall IH]; [contradiction|].
  clear Hne. intros [|n] Hn; [cbn in Hn; lia|].
  cbn [parse_items].
  destruct items as [|y items].
  - cbn [map join]. rewrite Hx by apply ends_value_indent.
    cbn beta iota zeta.
    rewrite skip_ws_indent by reflexivity. reflexivity.
  - assert (Hy : exists c tl,
               join (item_sep (S level)) (map (encode (S level)) (y :: items))
               = c :: tl /\ is_ws c = false).
    { inversion Hall as [|? ? [(c & tl & E & Hc & _) _] _]; subst.
      cbn [map]. rewrite join_cons, E. eexists; eexists; split; [reflexivity|].
      exact Hc. }
    destruct Hy as (c & tl & E & Hc).
    specialize (IH ltac:(discriminate) n ltac:(cbn in Hn |- *; lia)).
    change (join (item_sep (S level)) (map (encode (S level)) (x :: y :: items)))
      with (encode (S level) x ++ item_sep (S level)
              ++ join (item_sep (S level)) (map (encode (S level)) (y :: items))).
    unfold item_sep at 1. change (lit ",") with [44%N].
    rewrite <- !app_assoc. cbn [app].
    rewrite Hx by apply ends_value_comma. cbn beta iota zeta.
    rewrite skip_ws_head by reflexivity.
    cbn [N.eqb Pos.eqb].
    rewrite E in IH |- *. cbn [app]. rewrite skip_ws_indent by exact Hc.
    cbn [app] in IH. rewrite IH. reflexivity.
Qed.

Lemma str_eqb_eq (a b : str) : str_eqb a b = true <-> a = b.
Proof.
  revert b. induction a as [|c a IH]; intros [|d b]; cbn [str_eqb];
    try (split; [discriminate | discriminate]); [now split|].
  rewrite andb_true_iff, N.eqb_eq, IH. split.
  - now intros [-> ->].
  - intros E. now injection E.
Qed.

Lemma dict_set_fresh (d : list (str * json)) (key : str) (value : json) :
  ~ In key (map fst d) -> dict_set d key value = d ++ [(key, value)].
Proof.
  induction d as [|[k v] d IH]; cbn [dict_set map fst In app]; intros H.
  - reflexivity.
  - destruct (str_eqb k key) eqn:E.
    + apply str_eqb_eq in E. tauto.
    + rewrite IH by tauto. reflexivity.
Qed.

Lemma parse_members_step (scan : str -> scanned json) (n : nat)
    (d : list (str * json)) (level : nat) (kv : str * json) (tail : str) :
  json_safe (fst kv) = true -> reads_back scan level (snd kv) ->
  ends_value tail ->
  parse_members scan (S n) d (member_text level kv ++ tail)
  = match skip_ws tail with
    | c :: s6 =>
        if (c =? 125)%N then Ok (dict_set d (fst kv) (snd kv), s6)
        else if (c =? 44)%N then
          parse_members scan n (dict_set d (fst kv) (snd kv)) (skip_ws s6)
        else Raise (ScanError (lit "Expecting ',' delimiter")
                      (length (skip_ws tail)))
    | [] => Raise (ScanError (lit "Expecting ',' delimiter") 0)
    end.
Proof.
  destruct kv as [k v]. cbn [fst snd].
  intros Hk [(c & tl & E & Hc & _) Hv] Ht.
  unfold member_text, encode_basestring_ascii. cbn [fst snd].
  change (lit ": ") with [58%N; 32%N].
  rewrite <- !app_assoc. cbn [app]. rewrite <- !app_assoc. cbn [app].
  cbn [parse_members expect N.eqb Pos.eqb].
  rewrite scanstring_escaped by exact Hk. cbn beta iota zeta.
  rewrite skip_ws_head by reflexivity.
  cbn [expect N.eqb Pos.eqb].
  replace (skip_ws (32%N :: encode level v ++ tail)) with (encode level v ++ tail).
  2:{ rewrite E. cbn [app skip_ws is_ws N.eqb Pos.eqb orb]. now rewrite Hc. }
  rewrite Hv by exact Ht. reflexivity.
Qed.

Lemma parse_members_dump (scan : str -> scanned json) (level : nat)
    (members : list (str * json)) (rest : str) :
  members <> [] ->
  Forall (fun kv => json_safe (fst kv) = true
                    /\ reads_back scan (S level) (snd kv)) members ->
  forall n d, length members <= n -> NoDup (map fst (d ++ members)) ->
  parse_members scan n d
    (join (item_sep (S level)) (map (member_text (S level)) members)
       ++ newline_indent level ++ 125%N :: rest)
  = Ok (d ++ members, rest).
Proof.
  intros Hne Hall.
  induction Hall as [|kv members [Hk Hv] Hall IH]; [contradiction|].
  clear Hne. intros [|n] d Hn Hd; [cbn in Hn; lia|].
  assert (Hfresh : dict_set d (fst kv) (snd kv) = d ++ [kv]).
  { rewrite dict_set_fresh; [now destruct kv|].
    rewrite map_app in Hd. cbn [map] in Hd.
    apply NoDup_remove_2 in Hd. intros Hin. apply Hd, in_or_app. now left. }
  destruct members as [|kv' members].
  - cbn [map join].
    rewrite parse_members_step by (assumption || apply ends_value_indent).
    rewrite skip_ws_indent by reflexivity. cbn [N.eqb Pos.eqb].
    now rewrite Hfresh.
  - change (join (item_sep (S level))
              (map (member_text (S level)) (kv :: kv' :: members)))
      with (member_text (S level) kv ++ item_sep (S level)
              ++ join (item_sep (S level))
                   (map (member_text (S level)) (kv' :: members))).
    unfold item_sep at 1. change (lit ",") with [44%N].
    rewrite <- !app_assoc. cbn [app].
    rewrite parse_members_step by (assumption || apply ends_value_comma).
    rewrite skip_ws_head by reflexivity. cbn [N.eqb Pos.eqb].
    rewrite Hfresh.
    specialize (IH ltac:(discriminate) n (d ++ [kv]) ltac:(cbn in Hn |- *; lia)).
    rewrite <- app_assoc in IH. cbn [app] in IH.
    specialize (IH Hd).
    assert (E : exists tl,
               join (item_sep (S level))
                 (map (member_text (S level)) (kv' :: members)) = 34%N :: tl).
    { cbn [map]. rewrite join_cons. eexists. reflexivity. }
    destruct E as (tl & E). rewrite E in IH |- *. cbn [app] in IH |- *.
    rewrite skip_ws_indent by reflexivity. exact IH.
Qed.

(** ** Values *)

Lemma expect_head (k c : N) (tl : str) :
  expect k [c] = None -> expect k (c :: tl) = None.
Proof. unfold expect. now destruct (c =? k)%N. Qed.

Lemma scan_once_repr_int (fuel : nat) (z : Z) (rest : str) :
  scan_once (S fuel) (repr_int z ++ rest) = match_number (repr_int z ++ rest).
Proof.
  unfold repr_int.
  destruct (to_int_shape z) as [E | (u & Hu & [E | E])]; rewrite E.
  - reflexivity.
  - destruct u; try contradiction; reflexivity.
  - destruct u; try contradiction; reflexivity.
Qed.

Lemma length_join_item (sep : str) (w : str) (ws : list str) :
  In w ws -> length w <= length (join sep ws).
Proof.
  induction ws as [|w' ws IH]; [contradiction|].
  rewrite join_cons, length_app. intros [-> | H]; [lia|].
  specialize (IH H). destruct ws; [contradiction|].
  rewrite length_app. lia.
Qed.

Lemma length_join_count (sep : str) (ws : list str) :
  Forall (fun w => w <> []) ws -> length ws <= length (join sep ws).
Proof.
  induction 1 as [|w ws Hw _ IH]; [cbn; lia|].
  rewrite join_cons, length_app. cbn [length].
  destruct w; [contradiction|]. cbn [length].
  destruct ws; [cbn; lia|]. rewrite length_app. lia.
Qed.

Lemma scan_once_dump (v : json) :
  dumpable v ->
  forall level fuel rest,
    length (encode level v) < fuel -> ends_value rest ->
    scan_once fuel (encode level v ++ rest) = Ok (v, rest).
Proof.
  induction v as [|b|z|x|s|items IH|members IH] using json_induction;
    intros Hv level [|fuel] rest Hfuel Hrest; try lia.
  - reflexivity.
  - destruct b; reflexivity.
  - cbn [encode]. rewrite scan_once_repr_int.
    now apply match_number_repr_int.
  - inversion Hv.
  - inversion Hv as [| | |? Hs| |]; subst.
    cbn [encode]. unfold encode_basestring_ascii.
    cbn [app]. rewrite <- app_assoc. cbn [app scan_once N.eqb Pos.eqb].
    now rewrite scanstring_escaped.
  - inversion Hv as [| | | |? Hitems|]; subst.
    destruct items as [|x items]; [reflexivity|].
    assert (Hback : Forall (reads_back (scan_once fuel) (S level)) (x :: items)).
    { rewrite Forall_forall in IH, Hitems |- *. intros y Hy. split.
      - apply encode_head. now apply Hitems.
      - intros r Hr. apply IH; [exact Hy | now apply Hitems | | exact Hr].
        pose proof (length_join_item (item_sep (S level))
                      (encode (S level) y) (map (encode (S level)) (x :: items))
                      (in_map _ _ _ Hy)) as Hl.
        change (encode level (JArr (x :: items)))
          with (lit "[" ++ newline_indent (S level)
                  ++ join (item_sep (S level))
                       (map (encode (S level)) (x :: items))
                  ++ newline_indent level ++ lit "]") in Hfuel.
        rewrite !length_app in Hfuel. cbn [length lit map list_ascii_of_string] in Hfuel.
        cbn [map] in Hl. lia. }
    assert (Hcount : length (x :: items)
                     <= length (join (item_sep (S level))
                                  (map (encode (S level)) (x :: items)))).
    { rewrite <- (length_map (encode (S level))) at 1.
      apply length_join_count. rewrite Forall_forall. intros w Hw.
      apply in_map_iff in Hw. destruct Hw as (y & <- & Hy).
      rewrite Forall_forall in Hitems.
      destruct (encode_head (S level) (Hitems y Hy)) as (c & tl & -> & _).
      discriminate. }
    change (encode level (JArr (x :: items)))
      with (lit "[" ++ newline_indent (S level)
              ++ join (item_sep (S level)) (map (encode (S level)) (x :: items))
              ++ newline_indent level ++ lit "]").
    change (lit "[") with [91%N]. change (lit "]") with [93%N].
    rewrite <- !app_assoc. cbn [app].
    assert (Hne : x :: items <> []) by discriminate.
    pose proof (@parse_items_dump _ level _ rest Hne Hback) as Hp.
    assert (Hh : exists c tl,
               join (item_sep (S level)) (map (encode (S level)) (x :: items))
               = c :: tl /\ value_head c).
    { inversion Hback as [|? ? [(c & tl & E & Hc) _] _]; subst.
      cbn [map]. rewrite join_cons, E. eexists; eexists; split; [reflexivity|].
      exact Hc. }
    destruct Hh as (c & tl & E & Hc & H93 & _).
    cbn [scan_once N.eqb Pos.eqb].
    rewrite E in Hp, Hcount |- *. cbn [app] in Hp |- *.
    rewrite skip_ws_indent by exact Hc.
    rewrite (expect_head _ _ _ H93).
    rewrite Hp; [reflexivity|]. cbn [length] in Hcount |- *.
    repeat first [rewrite length_app | progress cbn [length]]. lia.
  - inversion Hv as [| | | | |? Hnodup Hmembers]; subst.
    destruct members as [|kv members]; [reflexivity|].
    assert (Hback : Forall (fun kv => json_safe (fst kv) = true
                                      /\ reads_back (scan_once fuel) (S level) (snd kv))
                      (kv :: members)).
    { rewrite Forall_forall in IH, Hmembers |- *. intros y Hy.
      destruct (Hmembers y Hy) as [Hk Hd]. split; [exact Hk|]. split.
      - now apply encode_head.
      - intros r Hr. apply IH; [exact Hy | exact Hd | | exact Hr].
        pose proof (length_join_item (item_sep (S level))
                      (member_text (S level) y)
                      (map (member_text (S level)) (kv :: members))
                      (in_map _ _ _ Hy)) as Hl.
        change (encode level (JObj (kv :: members)))
          with (lit "{" ++ newline_indent (S level)
                  ++ join (item_sep (S level))
                       (map (member_text (S level)) (kv :: members))
                  ++ newline_indent level ++ lit "}") in Hfuel.
        unfold member_text in Hl at 1.
        rewrite !length_app in Hfuel. rewrite !length_app in Hl.
        cbn [length lit map list_ascii_of_string] in Hfuel.
        cbn [map] in Hl. lia. }
    assert (Hcount : length (kv :: members)
                     <= length (join (item_sep (S level))
                                  (map (member_text (S level)) (kv :: members)))).
    { rewrite <- (length_map (member_text (S level))) at 1.
      apply length_join_count. rewrite Forall_forall. intros w Hw.
      apply in_map_iff in Hw. destruct Hw as (y & <- & Hy). discriminate. }
    change (encode level (JObj (kv :: members)))
      with (lit "{" ++ newline_indent (S level)
              ++ join (item_sep (S level))
                   (map (member_text (S level)) (kv :: members))
              ++ newline_indent level ++ lit "}").
    change (lit "{") with [123%N]. change (lit "}") with [125%N].
    rewrite <- !app_assoc. cbn [app].
    assert (Hne : kv :: members <> []) by discriminate.
    pose proof (@parse_members_dump _ level _ rest Hne Hback) as Hp.
    assert (E : exists tl,
               join (item_sep (S level))
                 (map (member_text (S level)) (kv :: members)) = 34%N :: tl).
    { cbn [map]. rewrite join_cons. eexists. reflexivity. }
    destruct E as (tl & E).
    cbn [scan_once N.eqb Pos.eqb].
    rewrite E in Hp, Hcount |- *. cbn [app] in Hp |- *.
    rewrite skip_ws_indent by reflexivity.
    cbn [expect N.eqb Pos.eqb].
    rewrite (Hp _ []); [reflexivity | | exact Hnodup]. cbn [length] in Hcount |- *.
    repeat first [rewrite length_app | progress cbn [length]]. lia.
Qed.

(** [json.loads(json.dumps(v, indent=2))] is [v]. *)
Lemma json_loads_dumps (v : json) :
  dumpable v -> json_loads (json_dumps v) = Ok v.
Proof.
  intros Hv. unfold json_loads, json_dumps.
  destruct (encode_head 0 Hv) as (c & tl & E & Hc & _ & _ & Hbom).
  pose proof (@scan_once_dump v Hv 0 (S (length (encode 0 v))) []
                (Nat.lt_succ_diag_r _) I) as Hs.
  rewrite app_nil_r in Hs. rewrite E in Hs |- *.
  rewrite (expect_head _ _ _ Hbom), skip_ws_head by exact Hc.
  rewrite Hs. reflexivity.
Qed.

(** ** Tasks: [load_tasks] reads back what [save_tasks] wrote *)

Lemma task_of_to_json (t : Task) : task_of_json (task_to_json t) = Some t.
Proof. now destruct t. Qed.

Lemma all_tasks_to_json (tasks : list Task) :
  all_tasks (map task_to_json tasks) = Some tasks.
Proof.
  induction tasks as [|t tasks IH]; [reflexivity|].
  cbn [map all_tasks]. now rewrite task_of_to_json, IH.
Qed.

Lemma tasks_of_to_json (tasks : list Task) :
  tasks_of_json (tasks_to_json tasks) = Some tasks.
Proof. apply all_tasks_to_json. Qed.

Lemma task_dumpable (t : Task) : storable t -> dumpable (task_to_json t).
Proof.
  intros (Hd & Hs & Hc & Hu). apply dumpable_obj.
  - cbn [map fst task_to_json].
    repeat (constructor; [cbn [In]; intuition discriminate|]). constructor.
  - repeat (constructor; [split; [reflexivity | constructor; assumption]|]).
    constructor.
Qed.

Lemma tasks_dumpable (tasks : list Task) :
  Forall storable tasks -> dumpable (tasks_to_json tasks).
Proof.
  intros H. apply dumpable_arr. apply Forall_map.
  revert H. apply Forall_impl. exact task_dumpable.
Qed.

Lemma load_tasks_world (w : World) : snd (load_tasks w) = w.
Proof.
  unfold load_tasks. destruct (load_json (tasks_file w)) as [j|e]; [|reflexivity].
  now destruct (tasks_of_json j).
Qed.

Lemma holds_load (w : World) (tasks : list Task) :
  holds w tasks -> load_tasks w = (Returns tasks, w).
Proof.
  unfold holds. intros H. rewrite <- (load_tasks_world w) at 2.
  rewrite <- H. now destruct (load_tasks w).
Qed.

Lemma holds_file (w w' : World) (tasks : list Task) :
  tasks_file w' = tasks_file w -> holds w tasks -> holds w' tasks.
Proof.
  unfold holds, load_tasks. intros ->.
  destruct (load_json (tasks_file w)) as [j|e]; [|exact (fun H => H)].
  now destruct (tasks_of_json j).
Qed.

Lemma load_json_written (tasks : list Task) :
  Forall storable tasks -> load_json (written tasks) = Ok (tasks_to_json tasks).
Proof.
  intros H. apply tasks_dumpable in H. unfold written, load_json.
  destruct (json_dumps (tasks_to_json tasks)) as [|c tl] eqn:E.
  - destruct (encode_head 0 H) as (c & tl & E' & _).
    unfold json_dumps in E. congruence.
  - rewrite <- E. now rewrite json_loads_dumps.
Qed.

(** A store that was saved holds the collection that was saved. *)
Lemma holds_written (w : World) (tasks : list Task) :
  Forall storable tasks -> tasks_file w = written tasks -> holds w tasks.
Proof.
  intros H E. unfold holds, load_tasks.
  now rewrite E, load_json_written, tasks_of_to_json.
Qed.

Lemma json_safe_text (s : str) : is_text s = true -> json_safe s = true.
Proof.
  induction s as [|c s IH]; [reflexivity|].
  cbn [is_text forallb json_safe]. intros H.
  apply andb_true_iff in H. destruct H as [H Hs].
  apply andb_true_iff in H. destruct H as [Hc Hsur].
  rewrite Hc, (IH Hs). apply negb_true_iff in Hsur.
  rewrite Hsur. now destruct s.
Qed.

(** ** The commands, one by one *)

Lemma world_after_nil (w : World) (file : file_state) (n : nat) (out : list str) :
  {| tasks_file := file; clock := clock w; ticks := n + ticks w;
     stdout := stdout w ++ out; stderr := stderr w |}
  = world_after w file n out [].
Proof. unfold world_after. now rewrite app_nil_r. Qed.

Lemma world_after_err (w : World) (file : file_state) (n : nat) (err : list str) :
  {| tasks_file := file; clock := clock w; ticks := n + ticks w;
     stdout := stdout w; stderr := stderr w ++ err |}
  = world_after w file n [] err.
Proof. unfold world_after. now rewrite app_nil_r. Qed.

Lemma add_task_run (w : World) (tasks : list Task) (description : str) :
  holds w tasks ->
  add_task description w
  = (Returns (new_task w tasks description),
     {| tasks_file := written (tasks ++ [new_task w tasks description]);
        clock := clock w; ticks := 2 + ticks w;
        stdout := stdout w; stderr := stderr w |}).
Proof.
  intros H. unfold add_task, bind at 1. rewrite (holds_load H). reflexivity.
Qed.

Lemma add_run (w : World) (tasks : list Task) (raw description : str) :
  holds w tasks -> validate_description raw = Ok description ->
  add raw w
  = (Returns tt,
     world_after w (written (tasks ++ [new_task w tasks description])) 2
       [lit "Task added successfully (ID: "
          ++ repr_int (max_default0 (map id tasks) + 1) ++ lit ")"] []).
Proof.
  intros H Hv. unfold add. rewrite Hv. unfold bind at 1.
  rewrite (add_task_run _ H). run. now rewrite <- world_after_nil.
Qed.

Lemma update_scan_miss (task_id : Z) (description : str) (rest seen : list Task)
    (w : World) :
  Forall (fun t => id t <> task_id) rest ->
  update_scan task_id description seen rest w = (Returns false, w).
Proof.
  intros H. revert seen. induction H as [|t rest Ht _ IH]; intros seen.
  - reflexivity.
  - cbn [update_scan]. apply Z.eqb_neq in Ht. rewrite Ht. apply IH.
Qed.

Lemma update_scan_hit (task_id : Z) (description : str)
    (pre : list Task) (t : Task) (post seen : list Task) (w : World) :
  Forall (fun p => id p <> task_id) pre -> id t = task_id ->
  update_scan task_id description seen (pre ++ t :: post) w
  = (Returns true,
     {| tasks_file :=
          written (seen ++ pre
                     ++ updated t description (clock w (ticks w)) :: post);
        clock := clock w; ticks := 1 + ticks w;
        stdout := stdout w
                    ++ [lit "Task " ++ repr_int task_id
                          ++ lit " updated successfully"];
        stderr := stderr w |}).
Proof.
  intros H Ht. revert seen. induction H as [|p pre Hp _ IH]; intros seen.
  - cbn [app update_scan]. apply Z.eqb_eq in Ht. rewrite Ht. reflexivity.
  - cbn [app update_scan]. apply Z.eqb_neq in Hp. rewrite Hp.
    rewrite IH. now rewrite <- app_assoc.
Qed.

Lemma status_scan_miss (task_id : Z) (new_status : str) (rest seen : list Task)
    (w : World) :
  Forall (fun t => id t <> task_id) rest ->
  status_scan task_id new_status seen rest w = (Returns false, w).
Proof.
  intros H. revert seen. induction H as [|t rest Ht _ IH]; intros seen.
  - reflexivity.
  - cbn [status_scan]. apply Z.eqb_neq in Ht. rewrite Ht. apply IH.
Qed.

Lemma status_scan_hit (task_id : Z) (new_status : str)
    (pre : list Task) (t : Task) (post seen : list Task) (w : World) :
  Forall (fun p => id p <> task_id) pre -> id t = task_id ->
  status_scan task_id new_status seen (pre ++ t :: post) w
  = (Returns true,
     {| tasks_file :=
          written (seen ++ pre
                     ++ marked t new_status (clock w (ticks w)) :: post);
        clock := clock w; ticks := 1 + ticks w;
        stdout := stdout w
                    ++ [lit "Task " ++ repr_int task_id
                          ++ lit " marked as " ++ new_status];
        stderr := stderr w |}).
Proof.
  intros H Ht. revert seen. induction H as [|p pre Hp _ IH]; intros seen.
  - cbn [app status_scan]. apply Z.eqb_eq in Ht. rewrite Ht. reflexivity.
  - cbn [app status_scan]. apply Z.eqb_neq in Hp. rewrite Hp.
    rewrite IH. now rewrite <- app_assoc.
Qed.

(** A collection with a task of a given id splits at the first one. *)
Lemma first_match (task_id : Z) (tasks : list Task) :
  (exists t, In t tasks /\ id t = task_id) ->
  exists pre t post,
    tasks = pre ++ t :: post /\ id t = task_id
    /\ Forall (fun p => id p <> task_id) pre.
Proof.
  induction tasks as [|a tasks IH]; intros (t & Hin & Ht); [contradiction|].
  destruct (Z.eq_dec (id a) task_id) as [E|E].
  - exists [], a, tasks. repeat split; [exact E | constructor].
  - destruct IH as (pre & t' & post & -> & Ht' & Hpre).
    + destruct Hin as [-> | Hin]; [contradiction|]. now exists t.
    + exists (a :: pre), t', post. repeat split; [exact Ht' | now constructor].
Qed.

Lemma update_hit_run (w : World) (task_id : Z) (description : str)
    (pre : list Task) (t : Task) (post : list Task) :
  holds w (pre ++ t :: post) ->
  Forall (fun p => id p <> task_id) pre -> id t = task_id ->
  update task_id description w
  = (Returns tt,
     world_after w
       (written (pre ++ updated t description (clock w (ticks w)) :: post)) 1
       [lit "Task " ++ repr_int task_id ++ lit " updated successfully"] []).
Proof.
  intros H Hpre Ht. unfold update, bind at 1. rewrite (holds_load H).
  unfold bind. rewrite (@update_scan_hit task_id description pre t post [] w Hpre Ht). run.
  now rewrite <- world_after_nil.
Qed.

Lemma update_miss_run (w : World) (task_id : Z) (description : str)
    (tasks : list Task) :
  holds w tasks -> Forall (fun t => id t <> task_id) tasks ->
  update task_id description w
  = (Returns tt,
     world_after w (tasks_file w) 0 []
       [lit "Task " ++ repr_int task_id ++ lit " not found"]).
Proof.
  intros H Hmiss. unfold update, bind at 1. rewrite (holds_load H).
  unfold bind. rewrite (@update_scan_miss task_id description tasks [] w Hmiss). run.
  now rewrite <- world_after_err.
Qed.

Lemma status_hit_run (w : World) (task_id : Z) (new_status : str)
    (pre : list Task) (t : Task) (post : list Task) :
  holds w (pre ++ t :: post) ->
  Forall (fun p => id p <> task_id) pre -> id t = task_id ->
  _update_task_status task_id new_status w
  = (Returns tt,
     world_after w
       (written (pre ++ marked t new_status (clock w (ticks w)) :: post)) 1
       [lit "Task " ++ repr_int task_id ++ lit " marked as " ++ new_status] []).
Proof.
  intros H Hpre Ht. unfold _update_task_status, bind at 1. rewrite (holds_load H).
  unfold bind. rewrite (@status_scan_hit task_id new_status pre t post [] w Hpre Ht). run.
  now rewrite <- world_after_nil.
Qed.

Lemma status_miss_run (w : World) (task_id : Z) (new_status : str)
    (tasks : list Task) :
  holds w tasks -> Forall (fun t => id t <> task_id) tasks ->
  _update_task_status task_id new_status w
  = (Returns tt,
     world_after w (tasks_file w) 0 []
       [lit "Task " ++ repr_int task_id ++ lit " not found"]).
Proof.
  intros H Hmiss. unfold _update_task_status, bind at 1. rewrite (holds_load H).
  unfold bind. rewrite (@status_scan_miss task_id new_status tasks [] w Hmiss). run.
  now rewrite <- world_after_err.
Qed.

Lemma delete_run (w : World) (task_id : Z) (tasks : list Task) :
  holds w tasks ->
  delete task_id w
  = (Returns tt,
     world_after w
       (written (filter (fun t => negb (id t =? task_id)%Z) tasks)) 0
       [lit "Task " ++ repr_int task_id ++ lit " deleted successfully"] []).
Proof.
  intros H. unfold delete, bind at 1. rewrite (holds_load H). run.
  now rewrite <- world_after_nil.
Qed.

(** ** The scanner never runs out of fuel *)

Lemma consumes_le {A : Type} (m n : nat) (r : scanned A) :
  consumes m r -> m <= n -> consumes n r.
Proof. destruct r as [[a rest]|[msg k|]]; cbn; trivial. lia. Qed.

Lemma consumes_prepend (c : N) (m n : nat) (r : scanned (list N)) :
  consumes m r -> m <= n -> consumes n (prepend c r).
Proof. destruct r as [[a rest]|[msg k|]]; cbn; trivial. lia. Qed.

Lemma scanstring_consumes (b : nat) (s : str) :
  consumes (length s) (scanstring b s).
Proof.
  remember (length s) as n eqn:En.
  assert (Hn : length s <= n) by lia. clear En.
  enough (H : consumes (length s) (scanstring b s)).
  { eapply consumes_le; eassumption. }
  revert s Hn. induction n as [|n IH]; intros s Hn.
  { destruct s; [exact I | cbn in Hn; lia]. }
  assert (Hrec : forall c s', length s' <= n -> length s' <= length s ->
                              consumes (length s) (prepend c (scanstring b s'))).
  { intros c s' H1 H2. eapply consumes_prepend; [apply IH; exact H1 | exact H2]. }
  destruct s as [|c s1]; [exact I|].
  cbn [length] in Hn, Hrec |- *. cbn [scanstring].
  destruct (c =? 34)%N; [cbn; lia|].
  destruct (c =? 92)%N.
  2:{ destruct (c <=? 31)%N; [exact I|]. apply Hrec; lia. }
  destruct s1 as [|e s2]; [exact I|]. cbn [length] in Hn, Hrec.
  destruct (e =? 117)%N.
  2:{ destruct (backslash e); [|exact I]. apply Hrec; lia. }
  destruct s2 as [|h1 [|h2 [|h3 [|h4 [|c1 s3]]]]]; try exact I.
  cbn [length] in Hn, Hrec.
  destruct (hex4 h1 h2 h3 h4) as [uni|]; [|exact I].
  destruct (is_high_surrogate uni); [|apply Hrec; cbn [length]; lia].
  destruct s3 as [|c2 [|g1 [|g2 [|g3 [|g4 [|c7 s4]]]]]];
    try (apply Hrec; cbn [length]; lia).
  cbn [length] in Hn, Hrec.
  destruct ((c1 =? 92) && (c2 =? 117))%N; [|apply Hrec; cbn [length]; lia].
  destruct (hex4 g1 g2 g3 g4) as [uni2|]; [|exact I].
  destruct (is_low_surrogate uni2); apply Hrec; cbn [length]; lia.
Qed.

Lemma skip_ws_length (s : str) : length (skip_ws s) <= length s.
Proof.
  induction s as [|c s IH]; [reflexivity|]. cbn [skip_ws].
  destruct (is_ws c); cbn [length]; lia.
Qed.

Lemma scan_digits_length (s : str) : length (snd (scan_digits s)) <= length s.
Proof.
  induction s as [|c s IH]; [reflexivity|]. cbn [scan_digits].
  destruct (digit_of c) as [d|]; [|reflexivity].
  destruct (scan_digits s) as [u rest]. cbn [snd length] in *. lia.
Qed.

Lemma skip_frac_length (s r : str) : skip_frac s = Some r -> length r <= length s.
Proof.
  destruct s as [|dot [|d s']]; try discriminate. cbn [skip_frac].
  destruct ((dot =? 46)%N && is_digit d); [|discriminate].
  intros [= <-]. pose proof (scan_digits_length s'). cbn [length]. lia.
Qed.

Lemma skip_exp_length (s r : str) : skip_exp s = Some r -> length r <= length s.
Proof.
  destruct s as [|e s1]; try discriminate. cbn [skip_exp].
  destruct ((e =? 101) || (e =? 69))%N; [|discriminate].
  assert (H : forall s2, length s2 <= length s1 ->
                match s2 with
                | [] => None
                | d :: s3 => if is_digit d then Some (snd (scan_digits s3)) else None
                end = Some r -> length r <= length (e :: s1)).
  { intros [|d s3] Hl; [discriminate|]. destruct (is_digit d); [|discriminate].
    intros [= <-]. pose proof (scan_digits_length s3). cbn [length] in *. lia. }
  destruct s1 as [|sign s']; [discriminate|].
  destruct ((sign =? 45) || (sign =? 43))%N;
    [apply (H s') | apply (H (sign :: s'))]; cbn [length]; lia.
Qed.

Lemma match_number_consumes (s : str) : consumes (length s) (match_number s).
Proof.
  unfold match_number.
  set (neg := match s with
              | c :: s' => if (c =? 45)%N then (true, s') else (false, s)
              | [] => (false, s)
              end).
  assert (Hneg : length (snd neg) <= length s).
  { subst neg. destruct s as [|c s']; [reflexivity|].
    destruct (c =? 45)%N; cbn [snd length]; lia. }
  destruct neg as [negative s1]. cbn [snd] in Hneg.
  destruct s1 as [|c s2]; [exact I|].
  set (int_part := if (c =? 48)%N then Some (D0 Nil, s2)
                   else if is_digit c then Some (scan_digits (c :: s2)) else None).
  assert (Hint : match int_part with
                 | Some (_, s3) => length s3 <= length s2
                 | None => True
                 end).
  { subst int_part. destruct (c =? 48)%N; [reflexivity|].
    unfold is_digit. cbn [scan_digits]. destruct (digit_of c); [|exact I].
    pose proof (scan_digits_length s2).
    now destruct (scan_digits s2). }
  destruct int_part as [[u s3]|]; [|exact I].
  destruct (skip_frac s3) as [r|] eqn:Ef;
    [apply skip_frac_length in Ef|];
    (destruct (skip_exp _) as [r'|] eqn:Ee; [apply skip_exp_length in Ee|]);
    cbn [orb consumes length] in *; lia.
Qed.

Lemma expect_length (c : N) (s rest : str) :
  expect c s = Some rest -> length rest < length s.
Proof.
  destruct s as [|c' s']; [discriminate|]. cbn [expect].
  destruct (c' =? c)%N; [|discriminate]. intros [= <-]. cbn [length]. lia.
Qed.

Lemma strip_prefix_length (word s rest : str) :
  strip_prefix word s = Some rest -> length rest + length word = length s.
Proof.
  revert s. induction word as [|w word IH]; intros s; cbn [strip_prefix].
  - intros [= <-]. cbn [length]. lia.
  - destruct s as [|c s']; [discriminate|].
    destruct (w =? c)%N; [|discriminate]. intros H. apply IH in H.
    cbn [length]. lia.
Qed.

Lemma parse_items_consumes (scan : str -> scanned json) (n : nat) (s : str) :
  (forall s', length s' <= length s -> consumes (length s') (scan s')) ->
  length s < n -> consumes (length s) (parse_items scan n s).
Proof.
  revert s. induction n as [|n IH]; intros s Hscan Hn; [lia|].
  cbn [parse_items].
  pose proof (Hscan s (le_n _)) as Hv.
  destruct (scan s) as [[v s1]|[msg k|]]; cbn [consumes] in Hv |- *;
    [|exact I|exact Hv].
  pose proof (skip_ws_length s1) as Hw.
  destruct (skip_ws s1) as [|c s3]; [exact I|]. cbn [length] in Hw.
  destruct (c =? 93)%N; [cbn; lia|].
  destruct (c =? 44)%N; [|exact I].
  pose proof (skip_ws_length s3) as Hw3.
  assert (Hrec : consumes (length (skip_ws s3)) (parse_items scan n (skip_ws s3))).
  { apply IH; [|lia]. intros s' Hs'. apply Hscan. lia. }
  destruct (parse_items scan n (skip_ws s3)) as [[vs rest]|[msg k|]];
    cbn [consumes] in Hrec |- *; trivial. lia.
Qed.

Lemma parse_members_consumes (scan : str -> scanned json) (n : nat)
    (d : list (str * json)) (s : str) :
  (forall s', length s' <= length s -> consumes (length s') (scan s')) ->
  length s < n -> consumes (length s) (parse_members scan n d s).
Proof.
  revert d s. induction n as [|n IH]; intros d s Hscan Hn; [lia|].
  cbn [parse_members].
  destruct (expect 34 s) as [s0|] eqn:E0; [|exact I].
  apply expect_length in E0.
  pose proof (scanstring_consumes (length s) s0) as Hk.
  destruct (scanstring (length s) s0) as [[key s1]|[msg k|]];
    cbn [consumes] in Hk |- *; [|exact I|exact Hk].
  pose proof (skip_ws_length s1) as Hw1.
  destruct (expect 58 (skip_ws s1)) as [s3|] eqn:E3; [|exact I].
  apply expect_length in E3.
  pose proof (skip_ws_length s3) as Hw3.
  pose proof (Hscan (skip_ws s3) ltac:(lia)) as Hv.
  destruct (scan (skip_ws s3)) as [[v s4]|[msg k|]];
    cbn [consumes] in Hv |- *; [|exact I|exact Hv].
  pose proof (skip_ws_length s4) as Hw4.
  destruct (skip_ws s4) as [|c s6]; [exact I|]. cbn [length] in Hw4.
  destruct (c =? 125)%N; [cbn; lia|].
  destruct (c =? 44)%N; [|exact I].
  pose proof (skip_ws_length s6) as Hw6.
  eapply consumes_le; [apply IH|]; try lia.
  intros s' Hs'. apply Hscan. lia.
Qed.

Lemma constant_consumes (word : string) (v : json) (s : str)
    (otherwise : scanned json) :
  lit word <> [] -> consumes (length s) otherwise ->
  consumes (length s) (constant word v s otherwise).
Proof.
  intros Hw Ho. unfold constant.
  destruct (strip_prefix (lit word) s) as [rest|] eqn:E; [|exact Ho].
  apply strip_prefix_length in E. cbn [consumes].
  destruct (lit word); [contradiction|]. cbn [length] in E. lia.
Qed.

(** With more fuel than characters, [scan_once] does not run out of fuel,
    and a value it reads takes at least one character. *)
Lemma scan_once_consumes (fuel : nat) (s : str) :
  length s < fuel -> consumes (length s) (scan_once fuel s).
Proof.
  revert s. induction fuel as [|fuel IH]; intros s Hs; [lia|].
  cbn [scan_once]. destruct s as [|c s1]; [exact I|]. cbn [length] in Hs.
  pose proof (skip_ws_length s1) as Hw.
  assert (Hscan : forall s', length s' <= length (skip_ws s1) ->
                             consumes (length s') (scan_once fuel s')).
  { intros s' Hs'. apply IH. lia. }
  pose proof (match_number_consumes (c :: s1)) as Hnum.
  destruct (c =? 34)%N.
  { pose proof (scanstring_consumes (length (c :: s1)) s1) as Hk.
    destruct (scanstring (length (c :: s1)) s1) as [[x rest]|[msg k|]];
      cbn [consumes length] in Hk |- *; trivial. lia. }
  destruct (c =? 123)%N.
  { destruct (expect 125 (skip_ws s1)) as [rest|] eqn:E.
    - apply expect_length in E. cbn [consumes length]. lia.
    - pose proof (@parse_members_consumes (scan_once fuel) (length (c :: s1)) []
                    (skip_ws s1) Hscan ltac:(cbn [length]; lia)) as Hm.
      destruct (parse_members _ _ _ _) as [[d rest]|[msg k|]];
        cbn [consumes length] in Hm |- *; trivial. lia. }
  destruct (c =? 91)%N.
  { destruct (expect 93 (skip_ws s1)) as [rest|] eqn:E.
    - apply expect_length in E. cbn [consumes length]. lia.
    - pose proof (@parse_items_consumes (scan_once fuel) (length (c :: s1))
                    (skip_ws s1) Hscan ltac:(cbn [length]; lia)) as Hm.
      destruct (parse_items _ _ _) as [[d rest]|[msg k|]];
        cbn [consumes length] in Hm |- *; trivial. lia. }
  repeat (match goal with
          | |- context [if ?b then _ else _] => destruct b
          end; [apply constant_consumes; [discriminate | exact Hnum]|]).
  exact Hnum.
Qed.

(** [json_loads] gives the scanner enough fuel. *)
Lemma json_loads_fuel (text : str) :
  scan_once (S (length text)) (skip_ws text) <> Raise OutOfFuel.
Proof.
  pose proof (skip_ws_length text) as Hw.
  pose proof (@scan_once_consumes (S (length text)) (skip_ws text) ltac:(lia)) as H.
  intros E. rewrite E in H. exact H.
Qed.

(** ** Filtering *)

Lemma filter_kept (p : Task -> bool) (P : Task -> Prop) (tasks : list Task) :
  (forall t, p t = true <-> P t) -> kept P tasks (filter p tasks).
Proof.
  intros Hp. induction tasks as [|t tasks IH]; cbn [filter]; [constructor|].
  destruct (p t) eqn:E.
  - apply kept_in; [now apply Hp | exact IH].
  - apply kept_out; [|exact IH]. intros H. apply Hp in H. congruence.
Qed.

Lemma kept_In (P : Task -> Prop) (tasks tasks' : list Task) :
  kept P tasks tasks' -> forall t, In t tasks' <-> In t tasks /\ P t.
Proof.
  induction 1 as [|a tasks tasks' Ha _ IH|a tasks tasks' Ha _ IH]; intros t.
  - cbn. tauto.
  - cbn [In]. rewrite IH. split.
    + intros [-> | [H1 H2]]; tauto.
    + intros [[-> | H1] H2]; tauto.
  - cbn [In]. rewrite IH. split.
    + tauto.
    + intros [[-> | H1] H2]; [contradiction | tauto].
Qed.


Lemma id_neq_iff (task_id : Z) (t : Task) :
  negb (id t =? task_id)%Z = true <-> id t <> task_id.
Proof. rewrite negb_true_iff. apply Z.eqb_neq. Qed.

(** ** The next id *)

Lemma fold_left_max (l : list Z) (a : Z) :
  let m := fold_left Z.max l a in
  (m = a \/ In m l) /\ (a <= m)%Z /\ forall i, In i l -> (i <= m)%Z.
Proof.
  revert a. induction l as [|b l IH]; intros a; cbn [fold_left].
  - cbn. repeat split; [now left | lia | contradiction].
  - destruct (IH (Z.max a b)) as ([E | Hin] & Hle & Hall).
    + repeat split.
      * rewrite E. destruct (Z.max_spec a b) as [[_ ->] | [_ ->]];
          [right; now left | now left].
      * lia.
      * intros i [<- | Hi]; [lia | now apply Hall].
    + repeat split.
      * right. now right.
      * lia.
      * intros i [<- | Hi]; [lia | now apply Hall].
Qed.

(** [max(ids, default=0)] is 0 for no id, and the largest of the ids
    otherwise. *)
Lemma max_default0_spec (ids : list Z) :
  match ids with
  | [] => max_default0 ids = 0%Z
  | _ => In (max_default0 ids) ids
         /\ forall i, In i ids -> (i <= max_default0 ids)%Z
  end.
Proof.
  destruct ids as [|a l]; [reflexivity|]. cbn [max_default0].
  destruct (fold_left_max l a) as ([E | Hin] & Hle & Hall).
  - split; [left; now rewrite E|]. intros i [<- | Hi]; [exact Hle | now apply Hall].
  - split; [now right|]. intros i [<- | Hi]; [exact Hle | now apply Hall].
Qed.

Lemma next_id_fresh (tasks : list Task) :
  ~ In (max_default0 (map id tasks) + 1)%Z (map id tasks).
Proof.
  pose proof (max_default0_spec (map id tasks)) as H. intros Hin.
  destruct (map id tasks) as [|a l]; [contradiction|].
  destruct H as [_ H]. specialize (H _ Hin). lia.
Qed.

(** ** Echoing lines *)

Lemma echo_all_run (lines : list str) (w : World) :
  echo_all lines w = (Returns tt, world_after w (tasks_file w) 0 lines []).
Proof.
  revert w. induction lines as [|l lines IH]; intros w.
  - unfold world_after. cbn [echo_all ret Nat.add]. rewrite !app_nil_r.
    now destruct w.
  - cbn [echo_all]. unfold bind, echo at 1. rewrite IH.
    unfold world_after. cbn [tasks_file clock ticks stdout stderr Nat.add].
    now rewrite <- app_assoc.
Qed.

Lemma echo_run (line : str) (w : World) :
  echo line w = (Returns tt, world_after w (tasks_file w) 0 [line] []).
Proof.
  unfold world_after, echo. cbn [Nat.add]. now rewrite app_nil_r.
Qed.

Lemma list_tasks_run (w : World) (tasks : list Task) (f : choice) :
  holds w tasks ->
  let shown :=
    match f with
    | All => tasks
    | _ => filter (fun t => str_eqb (status t) (choice_name f)) tasks
    end in
  list_tasks (choice_name f) w
  = (Returns tt,
     world_after w (tasks_file w) 0
       match shown with
       | [] => [lit "No tasks found"]
       | _ => map task_line shown
       end []).
Proof.
  intros H shown. unfold list_tasks, bind. rewrite (holds_load H).
  assert (E : (if negb (str_eqb (choice_name f) (lit "all"))
               then filter (fun t => str_eqb (status t) (choice_name f)) tasks
               else tasks) = shown) by now destruct f.
  rewrite E. destruct shown as [|t shown']; [apply echo_run|].
  apply echo_all_run.
Qed.

(** ** The claims on the commands *)

Lemma validate_description_normalized (raw description : str) :
  validate_description raw = Ok description ->
  description = normalizeDescription raw.
Proof.
  unfold validate_description. rewrite join_split_normalizes.
  destruct (length (normalizeDescription raw) =? 0)%nat; [discriminate|].
  destruct (500 <? length (normalizeDescription raw))%nat; [discriminate|].
  now intros [= <-].
Qed.

Lemma holds_nothing (w : World) :
  tasks_file w = Missing \/ tasks_file w = Contents [] -> holds w [].
Proof. unfold holds, load_tasks. now intros [-> | ->]. Qed.

(** C2, as the code has it.  For a valid description, [add] appends one
    task at the end of the collection: its id is 1 for an empty collection
    and one more than the largest id present otherwise, its status is todo,
    its description is the normalized description, and its two timestamps
    are the two readings of the clock that [add_task] makes, createdAt
    first; the collection is saved and the task is returned to the
    command, which reports its id. *)
Theorem add_appends_task (w : World) (tasks : list Task) (raw valid : str) :
  holds w tasks -> validate_description raw = Ok valid ->
  let t := new_task w tasks valid in
  add_task valid w
  = (Returns t,
     {| tasks_file := written (tasks ++ [t]); clock := clock w;
        ticks := 2 + ticks w; stdout := stdout w; stderr := stderr w |})
  /\ add raw w
     = (Returns tt,
        world_after w (written (tasks ++ [t])) 2
          [lit "Task added successfully (ID: " ++ repr_int (id t) ++ lit ")"]
          [])
  /\ match tasks with
     | [] => id t = 1%Z
     | _ => exists m, In m (map id tasks)
                      /\ (forall i, In i (map id tasks) -> (i <= m)%Z)
                      /\ id t = (m + 1)%Z
     end
  /\ status t = lit "todo"
  /\ description t = normalizeDescription raw
  /\ createdAt t = clock w (ticks w)
  /\ updatedAt t = clock w (S (ticks w))
  /\ (Forall storable (tasks ++ [t]) -> holds (snd (add raw w)) (tasks ++ [t])).
Proof.
  intros H Hv t.
  pose proof (@add_run w tasks raw valid H Hv) as Hadd. fold t in Hadd.
  split; [exact (@add_task_run w tasks valid H)|].
  split; [exact Hadd|].
  split.
  { pose proof (max_default0_spec (map id tasks)) as Hm. subst t.
    destruct tasks as [|a tasks']; cbn [new_task id].
    - reflexivity.
    - destruct Hm as [Hin Hall]. eexists. split; [exact Hin|]. split; [exact Hall|].
      reflexivity. }
  repeat split.
  - exact (@validate_description_normalized raw valid Hv).
  - intros Hs. rewrite Hadd. apply holds_written; [exact Hs | reflexivity].
Qed.

Lemma add_appends_task_witness :
  holds world0 [] /\ validate_description (lit " Buy   milk ") = Ok (lit "Buy milk")
  /\ add (lit " Buy   milk ") world0
     = (Returns tt,
        world_after world0
          (written [new_task world0 [] (lit "Buy milk")]) 2
          [lit "Task added successfully (ID: 1)"] []).
Proof.
  assert (H : holds world0 []) by reflexivity.
  assert (Hv : validate_description (lit " Buy   milk ") = Ok (lit "Buy milk"))
    by reflexivity.
  split; [exact H|]. split; [exact Hv|].
  exact (proj1 (proj2 (@add_appends_task world0 [] (lit " Buy   milk ") (lit "Buy milk") H Hv))).
Defined.

(** The two timestamps of a new task are two readings of the clock: they
    differ when the clock advanced in between. *)
Lemma add_timestamps_differ :
  ~ (forall (w : World) (description : str) (t : Task),
        fst (add_task description w) = Returns t -> createdAt t = updatedAt t).
Proof.
  intros H.
  specialize (H world0 (lit "Buy milk") (new_task world0 [] (lit "Buy milk"))
                eq_refl).
  vm_compute in H. discriminate H.
Qed.

(** C4. When the store has a task with the given id, [update] gives the
    first such task the new description as it is, without normalizing or
    validating it, and the current time as updatedAt; the id, the status and
    createdAt of that task and all the other tasks are as before. *)
Theorem update_changes_description (w : World) (tasks : list Task)
    (task_id : Z) (new_description : str) :
  holds w tasks -> (exists t, In t tasks /\ id t = task_id) ->
  exists pre t post,
    tasks = pre ++ t :: post /\ id t = task_id
    /\ Forall (fun p => id p <> task_id) pre
    /\ let t' := updated t new_description (clock w (ticks w)) in
       update task_id new_description w
       = (Returns tt,
          world_after w (written (pre ++ t' :: post)) 1
            [lit "Task " ++ repr_int task_id ++ lit " updated successfully"] [])
       /\ description t' = new_description
       /\ updatedAt t' = clock w (ticks w)
       /\ id t' = id t /\ status t' = status t /\ createdAt t' = createdAt t.
Proof.
  intros H Hex.
  destruct (@first_match task_id tasks Hex) as (pre & t & post & -> & Ht & Hpre).
  exists pre, t, post. repeat split; try assumption.
  exact (@update_hit_run w task_id new_description pre t post H Hpre Ht).
Qed.

Lemma update_changes_description_witness :
  exists pre t post,
    two_tasks = pre ++ t :: post /\ id t = 1%Z
    /\ Forall (fun p => id p <> 1%Z) pre
    /\ let t' := updated t (lit "  Buy oat milk") (clock world2 (ticks world2)) in
       update 1 (lit "  Buy oat milk") world2
       = (Returns tt,
          world_after world2 (written (pre ++ t' :: post)) 1
            [lit "Task " ++ repr_int 1 ++ lit " updated successfully"] [])
       /\ description t' = lit "  Buy oat milk"
       /\ updatedAt t' = clock world2 (ticks world2)
       /\ id t' = id t /\ status t' = status t /\ createdAt t' = createdAt t.
Proof.
  apply (@update_changes_description world2 two_tasks 1 (lit "  Buy oat milk")).
  - vm_compute. reflexivity.
  - eexists. split; [left; reflexivity | reflexivity].
Defined.

(** C5. When no task of the store has the given id, [update] and
    [_update_task_status] (so mark-done and mark-in-progress) write nothing:
    the tasks file is as it was, the only effect is the line
    "Task N not found" on the error stream, and the command returns, so the
    exit code is 0. *)
Theorem not_found_changes_nothing (w : World) (tasks : list Task) (task_id : Z) :
  holds w tasks -> Forall (fun t => id t <> task_id) tasks ->
  let w' := world_after w (tasks_file w) 0 []
              [lit "Task " ++ repr_int task_id ++ lit " not found"] in
  (forall d, cli (Update task_id d) w = (Returns tt, w'))
  /\ (forall s, _update_task_status task_id s w = (Returns tt, w'))
  /\ cli (MarkDone task_id) w = (Returns tt, w')
  /\ cli (MarkInProgress task_id) w = (Returns tt, w')
  /\ (forall d, exit_code (fst (cli (Update task_id d) w)) = Some 0%Z)
  /\ exit_code (fst (cli (MarkDone task_id) w)) = Some 0%Z
  /\ exit_code (fst (cli (MarkInProgress task_id) w)) = Some 0%Z
  /\ tasks_file w' = tasks_file w /\ holds w' tasks.
Proof.
  intros H Hmiss w'.
  assert (Hu : forall d, cli (Update task_id d) w = (Returns tt, w'))
    by (intros d; exact (@update_miss_run w task_id d tasks H Hmiss)).
  assert (Hs : forall s, _update_task_status task_id s w = (Returns tt, w'))
    by (intros s; exact (@status_miss_run w task_id s tasks H Hmiss)).
  split; [exact Hu|]. split; [exact Hs|].
  split; [apply Hs|]. split; [apply Hs|].
  split; [intros d; now rewrite Hu|].
  split; [cbn [cli]; unfold mark_done; now rewrite Hs|].
  split; [cbn [cli]; unfold mark_in_progress; now rewrite Hs|].
  split; [reflexivity|].
  exact (@holds_file w w' tasks eq_refl H).
Qed.

Lemma not_found_changes_nothing_witness :
  cli (MarkDone 999) world2
  = (Returns tt,
     world_after world2 (tasks_file world2) 0 [] [lit "Task 999 not found"]).
Proof.
  refine (proj1 (proj2 (proj2
           (@not_found_changes_nothing world2 two_tasks 999 _ _)))).
  - vm_compute. reflexivity.
  - repeat constructor; discriminate.
Defined.

(** C6. [delete] removes the tasks whose id is the given one, all of them,
    keeps the other tasks as they are and in their order, saves the result
    whether or not a task matched, and reports success. *)
Theorem delete_removes_matching (w : World) (tasks : list Task) (task_id : Z) :
  holds w tasks ->
  exists tasks',
    kept (fun t => id t <> task_id) tasks tasks'
    /\ (forall t, In t tasks' <-> In t tasks /\ id t <> task_id)
    /\ cli (Delete task_id) w
       = (Returns tt,
          world_after w (written tasks') 0
            [lit "Task " ++ repr_int task_id ++ lit " deleted successfully"] [])
    /\ exit_code (fst (cli (Delete task_id) w)) = Some 0%Z
    /\ (Forall storable tasks -> holds (snd (cli (Delete task_id) w)) tasks').
Proof.
  intros H.
  pose proof (@filter_kept (fun t => negb (id t =? task_id)%Z)
                (fun t => id t <> task_id) tasks (id_neq_iff task_id)) as Hk.
  pose proof (@delete_run w task_id tasks H) as Hrun.
  eexists. split; [exact Hk|]. split; [exact (@kept_In _ _ _ Hk)|].
  cbn [cli]. rewrite Hrun. repeat split.
  intros Hs. apply holds_written; [|reflexivity].
  rewrite Forall_forall in Hs |- *. intros t Ht.
  apply Hs. now apply filter_In in Ht.
Qed.

Lemma delete_removes_matching_witness :
  exists tasks',
    kept (fun t => id t <> 7%Z) two_tasks tasks'
    /\ (forall t, In t tasks' <-> In t two_tasks /\ id t <> 7%Z)
    /\ cli (Delete 7) world2
       = (Returns tt,
          world_after world2 (written tasks') 0
            [lit "Task " ++ repr_int 7 ++ lit " deleted successfully"] [])
    /\ exit_code (fst (cli (Delete 7) world2)) = Some 0%Z
    /\ (Forall storable two_tasks -> holds (snd (cli (Delete 7) world2)) tasks').
Proof.
  apply (@delete_removes_matching world2 two_tasks 7).
  vm_compute. reflexivity.
Defined.



(** C9. Loading after saving gives back the collection that was saved, the
    tasks in their order and each field as it was, for every collection of
    tasks whose texts survive a dump; the well-formed tasks are among
    them. *)
Theorem load_save_round_trip (w : World) (tasks : list Task) :
  Forall storable tasks ->
  load_tasks (snd (save_tasks tasks w))
  = (Returns tasks, snd (save_tasks tasks w)).
Proof.
  intros H. apply holds_load. apply holds_written; [exact H | reflexivity].
Qed.

Lemma well_formed_storable (t : Task) : well_formed t -> storable t.
Proof.
  intros (_ & Hs & Hd & Hc & Hu). repeat split; try now apply json_safe_text.
  destruct Hs as [<- | [<- | [<- | []]]]; reflexivity.
Qed.

Lemma two_tasks_well_formed : Forall well_formed two_tasks.
Proof.
  unfold two_tasks.
  repeat (constructor;
          [split; [reflexivity|]; split;
           [cbn [status statuses In]; intuition reflexivity | repeat split]|]).
  constructor.
Qed.

Lemma load_save_round_trip_witness :
  load_tasks (snd (save_tasks two_tasks world0))
  = (Returns two_tasks, snd (save_tasks two_tasks world0)).
Proof.
  apply (@load_save_round_trip world0 two_tasks).
  repeat (constructor; [repeat split|]). constructor.
Defined.

(** Outside these collections a text can change: a high surrogate written
    just before a low one comes back as the one character they encode. *)
Lemma surrogate_pair_joined :
  json_loads (json_dumps (JStr [55357; 56832]%N)) = Ok (JStr [128512%N]).
Proof. reflexivity. Qed.

(** C10. When several tasks of the store bear the given id, [update] and
    [_update_task_status] change the first of them only and save the later
    ones as they were, whereas [delete] saves a collection in which no task
    bears the id. *)
Theorem first_duplicate_only (w : World) (pre : list Task) (t : Task)
    (post : list Task) (task_id : Z) :
  holds w (pre ++ t :: post) ->
  Forall (fun p => id p <> task_id) pre -> id t = task_id ->
  (exists t2, In t2 post /\ id t2 = task_id) ->
  (forall d,
      snd (update task_id d w)
      = world_after w
          (written (pre ++ updated t d (clock w (ticks w)) :: post)) 1
          [lit "Task " ++ repr_int task_id ++ lit " updated successfully"] [])
  /\ (forall s,
         snd (_update_task_status task_id s w)
         = world_after w
             (written (pre ++ marked t s (clock w (ticks w)) :: post)) 1
             [lit "Task " ++ repr_int task_id ++ lit " marked as " ++ s] [])
  /\ exists tasks',
       tasks_file (snd (delete task_id w)) = written tasks'
       /\ kept (fun p => id p <> task_id) (pre ++ t :: post) tasks'
       /\ Forall (fun p => id p <> task_id) tasks'
       /\ length tasks' + 2 <= length (pre ++ t :: post).
Proof.
  intros H Hpre Ht (t2 & Hin & Ht2).
  split; [intros d; now rewrite (@update_hit_run w task_id d pre t post H Hpre Ht)|].
  split; [intros s; now rewrite (@status_hit_run w task_id s pre t post H Hpre Ht)|].
  pose proof (@filter_kept (fun p => negb (id p =? task_id)%Z)
                (fun p => id p <> task_id) (pre ++ t :: post)
                (id_neq_iff task_id)) as Hk.
  eexists. split; [now rewrite (@delete_run w task_id _ H)|].
  split; [exact Hk|]. split.
  - rewrite Forall_forall. intros p Hp. now apply (@kept_In _ _ _ Hk) in Hp.
  - apply in_split in Hin. destruct Hin as (l1 & l2 & ->).
    rewrite filter_app. cbn [filter]. rewrite filter_app. cbn [filter].
    apply Z.eqb_eq in Ht, Ht2. rewrite Ht, Ht2. cbn [negb].
    rewrite !length_app. cbn [length]. rewrite length_app. cbn [length].
    pose proof (filter_length_le (fun p => negb (id p =? task_id)%Z) pre).
    pose proof (filter_length_le (fun p => negb (id p =? task_id)%Z) l1).
    pose proof (filter_length_le (fun p => negb (id p =? task_id)%Z) l2).
    lia.
Qed.

Lemma first_duplicate_only_witness :
  snd (update 1 (lit "Buy oat milk") world_duplicated)
  = world_after world_duplicated
      (written [task_ann;
                updated task_milk (lit "Buy oat milk") (clock world0 0);
                task_bread]) 1
      [lit "Task " ++ repr_int 1 ++ lit " updated successfully"] [].
Proof.
  refine (proj1 (@first_duplicate_only world_duplicated
                   [task_ann] task_milk [task_bread] 1
                   _ _ eq_refl _) (lit "Buy oat milk")).
  - vm_compute. reflexivity.
  - repeat constructor. discriminate.
  - exists task_bread. split; [left; reflexivity | reflexivity].
Defined.

(** ** Sessions *)

Lemma collapse_runs_text (b : bool) (s : str) :
  is_text s = true -> is_text (collapse_runs b s) = true.
Proof.
  unfold is_text. revert b. induction s as [|c s IH]; intros b; [reflexivity|].
  cbn [forallb collapse_runs]. intros H.
  apply andb_true_iff in H. destruct H as [Hc Hs].
  destruct (isspace c); [destruct b|]; cbn [forallb];
    rewrite ?Hc, ?(IH _ Hs); try reflexivity; now apply IH.
Qed.

Lemma ltrim_text (s : str) : is_text s = true -> is_text (ltrim s) = true.
Proof.
  unfold is_text. induction s as [|c s IH]; [reflexivity|].
  cbn [ltrim]. intros H. destruct (isspace c); [|exact H].
  cbn [forallb] in H. apply andb_true_iff in H. now apply IH.
Qed.

Lemma rtrim_text (s : str) : is_text s = true -> is_text (rtrim s) = true.
Proof.
  unfold is_text. induction s as [|c s IH]; [reflexivity|].
  cbn [forallb rtrim]. intros H.
  apply andb_true_iff in H. destruct H as [Hc Hs]. specialize (IH Hs).
  destruct (rtrim s) as [|d r].
  - destruct (isspace c); [reflexivity|]. cbn [forallb]. now rewrite Hc.
  - cbn [forallb] in IH |- *. now rewrite Hc.
Qed.

Lemma normalized_text (raw : str) :
  is_text raw = true -> is_text (normalizeDescription raw) = true.
Proof.
  intros H. unfold normalizeDescription.
  now apply rtrim_text, ltrim_text, collapse_runs_text.
Qed.

Lemma match_or_miss (task_id : Z) (tasks : list Task) :
  Forall (fun t => id t <> task_id) tasks
  \/ exists pre t post,
       tasks = pre ++ t :: post /\ id t = task_id
       /\ Forall (fun p => id p <> task_id) pre.
Proof.
  induction tasks as [|a tasks IH]; [left; constructor|].
  destruct (Z.eq_dec (id a) task_id) as [E|E].
  - right. exists [], a, tasks. repeat split; [exact E | constructor].
  - destruct IH as [IH | (pre & t & post & -> & Ht & Hpre)].
    + left. now constructor.
    + right. exists (a :: pre), t, post. repeat split; [exact Ht | now constructor].
Qed.

Lemma sound_after (w : World) (tasks' : list Task) (n : nat)
    (out err : list str) :
  Forall storable tasks' -> NoDup (map id tasks') ->
  sound (world_after w (written tasks') n out err) tasks'.
Proof.
  intros Hs Hn. split; [|split; assumption].
  apply holds_written; [exact Hs | reflexivity].
Qed.

Lemma sound_same_file (w : World) (tasks : list Task) (n : nat)
    (out err : list str) :
  sound w tasks -> sound (world_after w (tasks_file w) n out err) tasks.
Proof.
  intros (H & Hs & Hn). split; [|split; assumption].
  exact (@holds_file w (world_after w (tasks_file w) n out err) tasks eq_refl H).
Qed.

Lemma replaced_ids (pre post : list Task) (t t' : Task) :
  id t' = id t -> map id (pre ++ t' :: post) = map id (pre ++ t :: post).
Proof. intros E. rewrite !map_app. cbn [map]. now rewrite E. Qed.

Lemma replaced_storable (pre post : list Task) (t t' : Task) :
  storable t' -> Forall storable (pre ++ t :: post) ->
  Forall storable (pre ++ t' :: post).
Proof.
  intros Ht H. apply Forall_app in H. destruct H as [Hpre H].
  inversion H; subst. apply Forall_app. split; [exact Hpre|]. now constructor.
Qed.

Lemma NoDup_map_filter (p : Task -> bool) (tasks : list Task) :
  NoDup (map id tasks) -> NoDup (map id (filter p tasks)).
Proof.
  induction tasks as [|t tasks IH]; [trivial|]. cbn [map filter].
  intros H. inversion H as [|? ? Hnot Hrest]; subst.
  destruct (p t); [|now apply IH]. cbn [map]. constructor; [|now apply IH].
  intros Hin. apply Hnot. apply in_map_iff in Hin.
  destruct Hin as (x & E & Hx). apply filter_In in Hx.
  apply in_map_iff. exists x. tauto.
Qed.

(** One command keeps a sound store sound, and leaves the clock alone. *)
Lemma cli_sound (c : command) (w : World) (tasks : list Task) :
  sound w tasks -> clock_texts w -> command_texts c ->
  exists tasks', sound (snd (cli c w)) tasks'
                 /\ clock (snd (cli c w)) = clock w.
Proof.
  intros Hsound Hclock Hc. pose proof Hsound as (H & Hs & Hn).
  destruct c as [d | i d | i | f | i | i]; cbn [cli command_texts] in *.
  - (* add *)
    destruct (validate_description d) as [valid|e] eqn:Hv.
    + rewrite (@add_run w tasks d valid H Hv). cbn [snd].
      eexists. split; [|reflexivity]. apply sound_after.
      * apply Forall_app. split; [exact Hs|]. constructor; [|constructor].
        rewrite (validate_description_normalized d Hv).
        repeat split; cbn [new_task description status createdAt updatedAt];
          try reflexivity; apply json_safe_text;
          [now apply normalized_text | apply Hclock | apply Hclock].
      * rewrite map_app. cbn [map new_task id].
        apply NoDup_app; [exact Hn | repeat constructor; intros [] |].
        intros x Hx [<- | []]. now apply (next_id_fresh tasks).
    + unfold add. rewrite Hv. cbn [raise snd]. now exists tasks.
  - (* update *)
    destruct (match_or_miss i tasks) as [Hmiss | (pre & t & post & -> & Ht & Hpre)].
    + rewrite (@update_miss_run w i d tasks H Hmiss). cbn [snd].
      exists tasks. split; [now apply sound_same_file | reflexivity].
    + rewrite (@update_hit_run w i d pre t post H Hpre Ht). cbn [snd].
      eexists. split; [|reflexivity]. apply sound_after.
      * apply (@replaced_storable pre post t); [|exact Hs].
        apply Forall_app in Hs. destruct Hs as [_ Hs].
        inversion Hs as [|? ? (Hd & Hst & Hcr & Hup) _]; subst.
        repeat split; cbn [updated description status createdAt updatedAt];
          try assumption; apply json_safe_text; [exact Hc | apply Hclock].
      * now rewrite (@replaced_ids pre post t).
  - (* delete *)
    rewrite (@delete_run w i tasks H). cbn [snd].
    eexists. split; [|reflexivity]. apply sound_after.
    + rewrite Forall_forall in Hs |- *. intros t Ht. apply Hs.
      now apply filter_In in Ht.
    + now apply NoDup_map_filter.
  - (* list *)
    pose proof (@list_tasks_run w tasks f H) as Hrun. cbn zeta in Hrun.
    rewrite Hrun. cbn [snd].
    exists tasks. split; [now apply sound_same_file | reflexivity].
  - (* mark-done *)
    unfold mark_done.
    destruct (match_or_miss i tasks) as [Hmiss | (pre & t & post & -> & Ht & Hpre)].
    + rewrite (@status_miss_run w i _ tasks H Hmiss). cbn [snd].
      exists tasks. split; [now apply sound_same_file | reflexivity].
    + rewrite (@status_hit_run w i _ pre t post H Hpre Ht). cbn [snd].
      eexists. split; [|reflexivity]. apply sound_after.
      * apply (@replaced_storable pre post t); [|exact Hs].
        apply Forall_app in Hs. destruct Hs as [_ Hs].
        inversion Hs as [|? ? (Hd & Hst & Hcr & Hup) _]; subst.
        repeat split; cbn [marked description status createdAt updatedAt];
          try assumption; try reflexivity; apply json_safe_text; apply Hclock.
      * now rewrite (@replaced_ids pre post t).
  - (* mark-in-progress *)
    unfold mark_in_progress.
    destruct (match_or_miss i tasks) as [Hmiss | (pre & t & post & -> & Ht & Hpre)].
    + rewrite (@status_miss_run w i _ tasks H Hmiss). cbn [snd].
      exists tasks. split; [now apply sound_same_file | reflexivity].
    + rewrite (@status_hit_run w i _ pre t post H Hpre Ht). cbn [snd].
      eexists. split; [|reflexivity]. apply sound_after.
      * apply (@replaced_storable pre post t); [|exact Hs].
        apply Forall_app in Hs. destruct Hs as [_ Hs].
        inversion Hs as [|? ? (Hd & Hst & Hcr & Hup) _]; subst.
        repeat split; cbn [marked description status createdAt updatedAt];
          try assumption; try reflexivity; apply json_safe_text; apply Hclock.
      * now rewrite (@replaced_ids pre post t).
Qed.

Lemma run_all_app (cs1 cs2 : list command) (w : World) :
  run_all (cs1 ++ cs2) w = run_all cs2 (run_all cs1 w).
Proof.
  revert w. induction cs1 as [|c cs1 IH]; intros w; [reflexivity|].
  cbn [app run_all]. apply IH.
Qed.

(** A session keeps a sound store sound. *)
Lemma session_sound (cs : list command) (w : World) (tasks : list Task) :
  sound w tasks -> clock_texts w -> Forall command_texts cs ->
  exists tasks', sound (run_all cs w) tasks' /\ clock_texts (run_all cs w).
Proof.
  intros Hs Hc Hcs. revert w tasks Hs Hc.
  induction Hcs as [|c cs Hc' _ IH]; intros w tasks Hs Hc.
  - exists tasks. now split.
  - cbn [run_all].
    destruct (@cli_sound c w tasks Hs Hc Hc') as (tasks1 & Hs1 & Hclk).
    apply (IH _ tasks1 Hs1). intros n. rewrite Hclk. apply Hc.
Qed.

Lemma sound_empty (w : World) : holds w [] -> sound w [].
Proof. intros H. split; [exact H|]. split; constructor. Qed.

(** C1, as the code has it.  In a session of adds and deletes that starts
    from a store without tasks, the ids of the tasks in the store are distinct,
    and each add gives its task one more than the largest id in the store
    at that time (1 when the store is empty), an id that no task then in the
    store bears. *)
Theorem ids_unique_next_above_present (cs : list command) (w : World) :
  holds w [] -> clock_texts w ->
  Forall add_or_delete cs -> Forall command_texts cs ->
  (exists tasks, holds (run_all cs w) tasks /\ NoDup (map id tasks))
  /\ forall before raw after valid,
       cs = before ++ Add raw :: after ->
       validate_description raw = Ok valid ->
       exists tasks t,
         holds (run_all before w) tasks
         /\ holds (run_all (before ++ [Add raw]) w) (tasks ++ [t])
         /\ id t = (max_default0 (map id tasks) + 1)%Z
         /\ (forall i, In i (map id tasks) -> (i < id t)%Z).
Proof.
  intros Hfile Hclock _ Htexts. split.
  - destruct (@session_sound cs w [] (@sound_empty w Hfile) Hclock Htexts)
      as (tasks & (H & _ & Hn) & _).
    now exists tasks.
  - intros before raw after valid -> Hv.
    apply Forall_app in Htexts. destruct Htexts as [Hbefore Hrest].
    destruct (@session_sound before w [] (@sound_empty w Hfile) Hclock Hbefore)
      as (tasks & Hs & Hclk).
    inversion Hrest as [|? ? Hraw _]; subst.
    exists tasks, (new_task (run_all before w) tasks valid).
    destruct Hs as (H & Hst & Hn).
    split; [exact H|]. split; [|split; [reflexivity|]].
    + rewrite run_all_app. cbn [run_all cli].
      rewrite (@add_run (run_all before w) tasks raw valid H Hv). cbn [snd].
      apply holds_written; [|reflexivity].
      apply Forall_app. split; [exact Hst|]. constructor; [|constructor].
      rewrite (validate_description_normalized raw Hv).
      repeat split; cbn [new_task description status createdAt updatedAt];
        try reflexivity; apply json_safe_text;
        [now apply normalized_text | apply Hclk | apply Hclk].
    + intros i Hi. cbn [new_task id].
      pose proof (max_default0_spec (map id tasks)) as Hm.
      destruct (map id tasks) as [|a l]; [contradiction|].
      destruct Hm as [_ Hm]. specialize (Hm i Hi). lia.
Qed.

Lemma world0_clock_texts : clock_texts world0.
Proof.
  intros n. cbn [world0 clock]. unfold is_text. rewrite forallb_app.
  apply andb_true_iff. split; [reflexivity|].
  unfold repr_int.
  destruct (Z.to_int (Z.of_nat n)) as [u|u];
    [|cbn [forallb]; apply andb_true_iff; split; [reflexivity|]];
    induction u; cbn [digits forallb]; try reflexivity; exact IHu.
Qed.

Lemma ids_unique_next_above_present_witness :
  exists tasks,
    holds (run_all [Add (lit "A"); Add (lit "B"); Delete 1; Add (lit "C")] world0)
      tasks
    /\ NoDup (map id tasks).
Proof.
  refine (proj1 (@ids_unique_next_above_present
                   [Add (lit "A"); Add (lit "B"); Delete 1; Add (lit "C")]
                   world0 eq_refl world0_clock_texts _ _));
    repeat constructor.
Defined.

(** The id of a task that held the largest id and was deleted is given
    again: after adding A and B and deleting the task 2, the task C gets the
    id 2, not one more than the largest id the store ever had. *)
Lemma next_id_reuses_deleted_maximum :
  let session := [Add (lit "A"); Add (lit "B"); Delete 2] in
  highest_ever session world0 = 2%Z
  /\ exists t, fst (add_task (lit "C") (run_all session world0)) = Returns t
               /\ id t = 2%Z
               /\ id t <> (highest_ever session world0 + 1)%Z.
Proof.
  split; [vm_compute; reflexivity|].
  eexists. split; [vm_compute; reflexivity|].
  split; [reflexivity|]. vm_compute. discriminate.
Qed.

(** ** Missing, empty and corrupted files *)

Lemma load_corrupted (w : World) (text : str) (e : JSONDecodeError) :
  tasks_file w = Contents text -> text <> [] -> json_loads text = Raise e ->
  load_tasks w
  = (Raises (ClickException
               (lit "Error: Tasks file is corrupted. " ++ str_of_error e)), w).
Proof.
  intros Hf Hne He. unfold load_tasks, load_json. rewrite Hf.
  destruct text as [|c text]; [contradiction|]. now rewrite He.
Qed.

Lemma all_tasks_nil (items : list json) :
  all_tasks items = Some [] -> items = [].
Proof.
  destruct items as [|j items]; [reflexivity|]. cbn [all_tasks].
  destruct (task_of_json j); [|discriminate].
  destruct (all_tasks items); discriminate.
Qed.

Lemma tasks_of_json_nil (j : json) :
  tasks_of_json j = Some [] -> j = JArr [].
Proof.
  destruct j; try discriminate. cbn [tasks_of_json].
  intros H. now rewrite (all_tasks_nil _ H).
Qed.

Lemma json_loads_nil (j : json) : json_loads [] <> Ok j.
Proof. vm_compute. discriminate. Qed.

(** [load_tasks] returns the empty collection for three kinds of file, and
    for no other. *)
Lemma load_tasks_empty_iff (w : World) :
  load_tasks w = (Returns [], w)
  <-> (tasks_file w = Missing \/ tasks_file w = Contents []
       \/ exists text, tasks_file w = Contents text
                       /\ json_loads text = Ok (JArr [])).
Proof.
  split.
  - unfold load_tasks, load_json.
    destruct (tasks_file w) as [|text|reason]; [now left | |discriminate].
    destruct text as [|c text]; [right; now left|].
    destruct (json_loads (c :: text)) as [j|e] eqn:E; [|discriminate].
    destruct (tasks_of_json j) as [tasks|] eqn:Et; [|discriminate].
    intros [= ->]. right. right. exists (c :: text). split; [reflexivity|].
    now rewrite <- (tasks_of_json_nil _ Et).
  - intros [H | [H | (text & H & E)]].
    + apply holds_load. apply holds_nothing. now left.
    + apply holds_load. apply holds_nothing. now right.
    + unfold load_tasks, load_json. rewrite H.
      destruct text as [|c text]; [now apply json_loads_nil in E|].
      now rewrite E.
Qed.

(** C8, as the code has it.  [load_tasks] returns the empty collection
    exactly when the tasks file is missing, has no character, or holds a
    text that [json.load] reads as the empty array, as the two characters
    that [save_tasks] writes for a collection without tasks.  When the file has
    characters that [json.load] cannot parse, [load_tasks] raises an error
    whose message ends with the diagnostic of the parser; every command
    then leaves the world as it was, the file not written and nothing
    echoed, and the process exits with 1, or with 2 when the description of
    an add was refused before the file was read. *)
Theorem load_empty_or_corrupted (w : World) :
  (load_tasks w = (Returns [], w)
   <-> (tasks_file w = Missing \/ tasks_file w = Contents []
        \/ exists text, tasks_file w = Contents text
                        /\ json_loads text = Ok (JArr [])))
  /\ forall text e,
       tasks_file w = Contents text -> text <> [] ->
       json_loads text = Raise e ->
       let failure :=
         ClickException
           (lit "Error: Tasks file is corrupted. " ++ str_of_error e) in
       load_tasks w = (Raises failure, w)
       /\ forall c,
            snd (cli c w) = w
            /\ (exit_code (fst (cli c w)) = Some 1%Z
                \/ exit_code (fst (cli c w)) = Some 2%Z)
            /\ ((forall raw, c = Add raw ->
                             exists valid, validate_description raw = Ok valid) ->
                cli c w = (Raises failure, w)).
Proof.
  split; [apply load_tasks_empty_iff|].
  intros text e Hf Hne He failure.
  pose proof (@load_corrupted w text e Hf Hne He) as Hload. fold failure in Hload.
  split; [exact Hload|].
  assert (Hbind : forall A (k : list Task -> prog A),
             bind load_tasks k w = (Raises failure, w)).
  { intros A k. unfold bind. now rewrite Hload. }
  intros c. destruct c as [raw | i d | i | f | i | i]; cbn [cli].
  - unfold add. destruct (validate_description raw) as [valid|[m|m]] eqn:Hv.
    + assert (E : add_task valid w = (Raises failure, w)) by apply Hbind.
      assert (Hrun : forall k : Task -> prog unit,
                 bind (add_task valid) k w = (Raises failure, w)).
      { intros k. unfold bind at 1. now rewrite E. }
      rewrite Hrun. cbn [fst snd exit_code]. repeat split; auto.
    + cbn [raise fst snd exit_code]. repeat split; auto.
      intros H. destruct (H raw eq_refl) as (valid & Hv'). congruence.
    + cbn [raise fst snd exit_code]. repeat split; auto.
      intros H. destruct (H raw eq_refl) as (valid & Hv'). congruence.
  - unfold update. rewrite Hbind. cbn [fst snd exit_code]. repeat split; auto.
  - unfold delete. rewrite Hbind. cbn [fst snd exit_code]. repeat split; auto.
  - unfold list_tasks. rewrite Hbind. cbn [fst snd exit_code]. repeat split; auto.
  - unfold mark_done, _update_task_status. rewrite Hbind.
    cbn [fst snd exit_code]. repeat split; auto.
  - unfold mark_in_progress, _update_task_status. rewrite Hbind.
    cbn [fst snd exit_code]. repeat split; auto.
Qed.

Lemma load_empty_or_corrupted_witness :
  load_tasks world_emptied = (Returns [], world_emptied)
  /\ cli (List All) world_corrupted
     = (Raises
          (ClickException
             (lit "Error: Tasks file is corrupted. Expecting property name enclosed in double quotes: line 1 column 2 (char 1)")),
        world_corrupted).
Proof.
  split.
  - apply (proj2 (proj1 (load_empty_or_corrupted world_emptied))).
    right. right. exists (lit "[]"). split; vm_compute; reflexivity.
  - refine (proj2 (proj2 (proj2 (proj2 (load_empty_or_corrupted world_corrupted)
              (lit "{invalid json}") _ eq_refl _ eq_refl) (List All))) _).
    + discriminate.
    + discriminate.
Defined.

(** A file that holds the empty array, as [save_tasks] leaves it for an
    empty collection, is neither missing nor of length zero, and loads as
    the empty collection. *)
Lemma empty_array_loads_empty :
  ~ (forall w : World,
        fst (load_tasks w) = Returns []
        <-> (tasks_file w = Missing \/ tasks_file w = Contents [])).
Proof.
  intros H.
  destruct (proj1 (H {| tasks_file := written []; clock := clock world0;
                        ticks := 0; stdout := []; stderr := [] |}) eq_refl)
    as [E | E]; discriminate E.
Qed.

(** ** Scenarios *)

(** The scenario of the specification: a task is added, marked in progress,
    updated, marked done and deleted; the list is then empty. *)
Example end_to_end_scenario :
  let w1 := run_all [Add (lit "Buy milk")] world0 in
  let w2 := run_all [MarkInProgress 1] w1 in
  let w3 := run_all [Update 1 (lit "Buy oat milk")] w2 in
  let w4 := run_all [MarkDone 1] w3 in
  let w5 := run_all [Delete 1] w4 in
  let w6 := run_all [List All] w5 in
  ids_of w1 = [1%Z]
  /\ fst (load_tasks w2)
     = Returns [ {| id := 1; description := lit "Buy milk";
                    status := lit "in-progress";
                    createdAt := clock world0 0;
                    updatedAt := clock world0 2 |} ]
  /\ fst (load_tasks w3)
     = Returns [ {| id := 1; description := lit "Buy oat milk";
                    status := lit "in-progress";
                    createdAt := clock world0 0;
                    updatedAt := clock world0 3 |} ]
  /\ fst (load_tasks w4)
     = Returns [ {| id := 1; description := lit "Buy oat milk";
                    status := lit "done";
                    createdAt := clock world0 0;
                    updatedAt := clock world0 4 |} ]
  /\ fst (load_tasks w5) = Returns []
  /\ tasks_file w5 = Contents (lit "[]")
  /\ stdout w6
     = [ lit "Task added successfully (ID: 1)";
         lit "Task 1 marked as in-progress";
         lit "Task 1 updated successfully";
         lit "Task 1 marked as done";
         lit "Task 1 deleted successfully";
         lit "No tasks found" ]
  /\ stderr w6 = [].
Proof. vm_compute. repeat split. Qed.

(** The scenario of the tests: three tasks are added and the middle one is
    deleted; the next task gets the id 4. *)
Example deletion_keeps_ids_growing :
  let w := run_all [Add (lit "Task 0"); Add (lit "Task 1"); Add (lit "Task 2");
                    Delete 2; Add (lit "New task")] world0 in
  ids_of w = [1; 3; 4]%Z.
Proof. vm_compute. reflexivity. Qed.

(** The layout of a dump: one item on each line, indented by two spaces
    for each level. *)
Example dump_layout :
  json_dumps (JArr [JInt 1; JArr []; JArr [JBool true; JNull]; JInt (-5)])
  = lit "[
  1,
  [],
  [
    true,
    null
  ],
  -5
]".
Proof. vm_compute. reflexivity. Qed.

(** * Further properties *)

(** ** validate_description: the text it returns *)

Lemma split_from_words (s : str) :
  Forall is_word (split_from None s)
  /\ forall w, is_word w -> Forall is_word (split_from (Some w) s).
Proof.
  induction s as [|c s [IHn IHo]]; cbn [split_from].
  - split; [constructor|]. intros w Hw. now constructor.
  - destruct (isspace c) eqn:E.
    + split; [exact IHn|]. intros w Hw. now constructor.
    + assert (Hc : forall w, forallb (fun c => negb (isspace c)) w = true ->
                             is_word (w ++ [c])).
      { intros w Hw. split; [now destruct w|].
        rewrite forallb_app, Hw. cbn. now rewrite E. }
      split.
      * apply IHo. apply (Hc []). reflexivity.
      * intros w [_ Hw]. apply IHo. now apply Hc.
Qed.

Lemma split_from_word_prefix (w rest : str) (acc : str) :
  forallb (fun c => negb (isspace c)) w = true ->
  split_from (Some acc) (w ++ rest) = split_from (Some (acc ++ w)) rest.
Proof.
  revert acc. induction w as [|c w IH]; intros acc Hw.
  - now rewrite app_nil_r.
  - cbn [forallb] in Hw. apply andb_true_iff in Hw. destruct Hw as [Hc Hw].
    apply negb_true_iff in Hc. cbn [app split_from]. rewrite Hc.
    rewrite IH by exact Hw. now rewrite <- app_assoc.
Qed.

Lemma split_from_start_word (w rest : str) :
  is_word w -> split_from None (w ++ rest) = split_from (Some w) rest.
Proof.
  intros [Hne Hw]. destruct w as [|c w]; [contradiction|].
  cbn [forallb] in Hw. apply andb_true_iff in Hw. destruct Hw as [Hc Hw].
  apply negb_true_iff in Hc. cbn [app split_from]. rewrite Hc.
  now rewrite split_from_word_prefix.
Qed.

(** Splitting what was joined gives the words back. *)
Lemma split_join (ws : list str) :
  Forall is_word ws -> split (join (lit " ") ws) = ws.
Proof.
  unfold split. induction 1 as [|w ws Hw Hws IH]; [reflexivity|].
  rewrite join_cons, split_from_start_word by exact Hw.
  destruct ws as [|w' ws]; [reflexivity|].
  change (split_from (Some w) (lit " " ++ join (lit " ") (w' :: ws)))
    with (w :: split_from None (join (lit " ") (w' :: ws))).
  now rewrite IH.
Qed.

Lemma split_words (s : str) : Forall is_word (split s).
Proof. apply split_from_words. Qed.

(** X1. A description that [validate_description] returned is returned
    unchanged when it is validated again. *)
Theorem validate_description_idempotent (raw valid : str) :
  validate_description raw = Ok valid ->
  validate_description valid = Ok valid.
Proof.
  unfold validate_description. intros H.
  set (n := join (lit " ") (split raw)) in *.
  assert (E : valid = n).
  { destruct (length n =? 0)%nat; [discriminate|].
    destruct (500 <? length n)%nat; [discriminate|]. now injection H. }
  subst valid.
  assert (E : join (lit " ") (split n) = n).
  { unfold n. now rewrite split_join by apply split_words. }
  rewrite E. exact H.
Qed.

Lemma validate_description_idempotent_witness :
  validate_description (lit "  Buy   oat milk ") = Ok (lit "Buy oat milk")
  /\ validate_description (lit "Buy oat milk") = Ok (lit "Buy oat milk").
Proof.
  assert (H : validate_description (lit "  Buy   oat milk ") = Ok (lit "Buy oat milk"))
    by (vm_compute; reflexivity).
  split; [exact H|].
  exact (@validate_description_idempotent _ _ H).
Defined.

Lemma word_char (w : str) (c : N) :
  is_word w -> In c w -> isspace c = false.
Proof.
  intros [_ H] Hin. rewrite forallb_forall in H.
  apply negb_true_iff. now apply H.
Qed.

Lemma word_last (w : str) :
  is_word w -> exists l a, w = l ++ [a] /\ isspace a = false.
Proof.
  intros Hw. destruct (exists_last (proj1 Hw)) as (l & a & E).
  exists l, a. split; [exact E|]. apply (@word_char w a Hw). rewrite E.
  apply in_or_app. right. now left.
Qed.

Lemma join_words_head (w : str) (ws : list str) :
  Forall is_word (w :: ws) ->
  exists b r, join (lit " ") (w :: ws) = b :: r /\ isspace b = false.
Proof.
  intros H. inversion H as [|? ? Hw _]; subst.
  rewrite join_cons. destruct w as [|b w']; [now destruct Hw|].
  exists b. eexists. split; [reflexivity|]. apply (@word_char (b :: w') b Hw). now left.
Qed.

(** In words joined by spaces, a whitespace character is one of the spaces
    that join them. *)
Lemma join_words_whitespace (ws : list str) :
  Forall is_word ws ->
  forall l c r,
    join (lit " ") ws = l ++ c :: r -> isspace c = true ->
    c = 32%N
    /\ (exists l' a, l = l' ++ [a] /\ isspace a = false)
    /\ (exists b r', r = b :: r' /\ isspace b = false).
Proof.
  induction 1 as [|w ws Hw Hws IH]; intros l c r E Hc.
  { now destruct l. }
  rewrite join_cons in E.
  assert (Hsep : forall r0, match ws with
                            | [] => []
                            | _ :: _ => lit " " ++ join (lit " ") ws
                            end = c :: r0 ->
                 c = 32%N /\ exists b r', r0 = b :: r' /\ isspace b = false).
  { intros r0 E0. destruct ws as [|w' ws']; [discriminate|].
    change (lit " ") with [32%N] in E0. cbn [app] in E0.
    injection E0 as <- <-. split; [reflexivity|].
    now apply join_words_head. }
  apply app_eq_app in E. destruct E as (m & [[E1 E2] | [E1 E2]]).
  - destruct m as [|c' m'].
    + cbn [app] in E2. rewrite app_nil_r in E1. subst l.
      destruct (Hsep r (eq_sym E2)) as [-> Hr].
      split; [reflexivity|]. split; [now apply word_last | exact Hr].
    + cbn [app] in E2. injection E2 as <- _.
      assert (isspace c = false).
      { apply (@word_char w c Hw). rewrite E1. apply in_or_app. right. now left. }
      congruence.
  - destruct m as [|c' m'].
    + cbn [app] in E2. rewrite app_nil_r in E1. subst l.
      destruct (Hsep r E2) as [-> Hr].
      split; [reflexivity|]. split; [now apply word_last | exact Hr].
    + destruct ws as [|w' ws']; [discriminate|].
      change (lit " ") with [32%N] in E2. cbn [app] in E2.
      injection E2 as <- E2.
      destruct (IH _ _ _ E2 Hc) as (-> & (l' & a & -> & Ha) & Hr).
      split; [reflexivity|]. split; [|exact Hr].
      exists (w ++ 32%N :: l'), a. split; [|exact Ha].
      subst l. now rewrite <- app_assoc.
Qed.

Lemma validated_is_joined (raw valid : str) :
  validate_description raw = Ok valid ->
  valid = join (lit " ") (split raw) /\ valid <> [] /\ length valid <= 500.
Proof.
  unfold validate_description.
  destruct (length (join (lit " ") (split raw)) =? 0)%nat eqn:E0; [discriminate|].
  destruct (500 <? length (join (lit " ") (split raw)))%nat eqn:E1; [discriminate|].
  intros [= <-]. apply Nat.eqb_neq in E0. apply Nat.ltb_ge in E1.
  split; [reflexivity|]. split; [|exact E1]. intros E. rewrite E in E0. now apply E0.
Qed.

(** X2. In a description that [validate_description] returned, there are
    between 1 and 500 characters, and every whitespace character is a space
    that stands between two characters that are not whitespace: none at the
    start, none at the end, never two in a row, and no tab or line break. *)
Theorem validated_whitespace_is_single_spaces (raw valid : str) :
  validate_description raw = Ok valid ->
  1 <= length valid <= 500
  /\ forall l c r,
       valid = l ++ c :: r -> isspace c = true ->
       c = 32%N
       /\ (exists l' a, l = l' ++ [a] /\ isspace a = false)
       /\ (exists b r', r = b :: r' /\ isspace b = false).
Proof.
  intros H. destruct (validated_is_joined raw H) as (E & Hne & Hlen).
  split.
  - destruct valid; [contradiction | cbn [length] in *; lia].
  - intros l c r El. apply (@join_words_whitespace (split raw) (split_words raw)).
    now rewrite <- E.
Qed.

Lemma validated_whitespace_is_single_spaces_witness :
  1 <= length (lit "Buy oat milk") <= 500
  /\ forall l c r,
       lit "Buy oat milk" = l ++ c :: r -> isspace c = true ->
       c = 32%N
       /\ (exists l' a, l = l' ++ [a] /\ isspace a = false)
       /\ (exists b r', r = b :: r' /\ isspace b = false).
Proof.
  apply (@validated_whitespace_is_single_spaces
           (10%N :: lit "Buy" ++ 9%N :: lit " oat  milk ")).
  vm_compute. reflexivity.
Defined.

(** ** validate_description: what it keeps of the input *)

Lemma filter_collapse_runs (b : bool) (s : str) :
  filter not_space (collapse_runs b s) = filter not_space s.
Proof.
  revert b. induction s as [|c s IH]; intros b; [reflexivity|].
  cbn [collapse_runs filter]. unfold not_space at 2.
  destruct (isspace c) eqn:E; cbn [negb].
  - destruct b; [apply IH|]. cbn [filter]. apply IH.
  - cbn [filter]. unfold not_space at 1. rewrite E. cbn [negb]. now rewrite IH.
Qed.

Lemma filter_ltrim (s : str) : filter not_space (ltrim s) = filter not_space s.
Proof.
  induction s as [|c s IH]; [reflexivity|]. cbn [ltrim].
  destruct (isspace c) eqn:E; [|reflexivity].
  cbn [filter]. unfold not_space at 2. now rewrite E.
Qed.

Lemma filter_rtrim (s : str) : filter not_space (rtrim s) = filter not_space s.
Proof.
  induction s as [|c s IH]; [reflexivity|]. cbn [rtrim filter]. rewrite <- IH.
  destruct (rtrim s) as [|d r].
  - unfold not_space. destruct (isspace c) eqn:E; cbn [negb filter].
    + reflexivity.
    + unfold not_space. now rewrite E.
  - reflexivity.
Qed.

(** X3. [validate_description] only touches whitespace: the characters of
    the description it returns that are not whitespace are those of the
    input, in the same order. *)
Theorem validated_keeps_other_characters (raw valid : str) :
  validate_description raw = Ok valid ->
  filter not_space valid = filter not_space raw.
Proof.
  intros H. rewrite (validate_description_normalized raw H).
  unfold normalizeDescription.
  now rewrite filter_rtrim, filter_ltrim, filter_collapse_runs.
Qed.

Lemma validated_keeps_other_characters_witness :
  filter not_space (lit "Buy oat milk")
  = filter not_space (10%N :: lit "Buy" ++ 9%N :: lit " oat  milk ").
Proof.
  apply validated_keeps_other_characters. vm_compute. reflexivity.
Defined.

(** ** validate_description: whitespace around the input *)

Lemma split_from_leading (pad s : str) :
  forallb isspace pad = true -> split_from None (pad ++ s) = split_from None s.
Proof.
  induction pad as [|c pad IH]; [reflexivity|]. cbn [forallb app split_from].
  intros H. apply andb_true_iff in H. destruct H as [-> H]. now apply IH.
Qed.

Lemma split_from_trailing (pad s : str) (acc : option str) :
  forallb isspace pad = true -> split_from acc (s ++ pad) = split_from acc s.
Proof.
  intros Hpad. revert acc. induction s as [|c s IH]; intros acc.
  - cbn [app]. destruct pad as [|c pad]; [reflexivity|].
    cbn [forallb] in Hpad. apply andb_true_iff in Hpad. destruct Hpad as [Hc Hpad].
    cbn [split_from]. rewrite Hc, (split_whitespace pad Hpad). now destruct acc.
  - cbn [app split_from]. destruct (isspace c), acc; now rewrite ?IH.
Qed.

(** X4. Whitespace before and after a description does not count:
    [validate_description] gives the same result, the same description or
    the same failure, with and without it. *)
Theorem validate_description_ignores_padding (before raw after : str) :
  forallb isspace before = true -> forallb isspace after = true ->
  validate_description (before ++ raw ++ after) = validate_description raw.
Proof.
  intros Hb Ha. unfold validate_description, split.
  now rewrite split_from_leading, split_from_trailing.
Qed.

Lemma validate_description_ignores_padding_witness :
  validate_description ([9; 32]%N ++ lit "Buy milk" ++ [10; 13; 160; 8195]%N)
  = validate_description (lit "Buy milk").
Proof.
  apply validate_description_ignores_padding; reflexivity.
Defined.

(** ** One command on a store that loads *)

Lemma holds_after (w : World) (tasks : list Task) (n : nat)
    (out err : list str) :
  Forall storable tasks -> holds (world_after w (written tasks) n out err) tasks.
Proof. intros H. apply holds_written; [exact H | reflexivity]. Qed.

Lemma holds_same_file (w : World) (tasks : list Task) (n : nat)
    (out err : list str) :
  holds w tasks -> holds (world_after w (tasks_file w) n out err) tasks.
Proof.
  exact (@holds_file w (world_after w (tasks_file w) n out err) tasks eq_refl).
Qed.

Lemma validate_raises (raw : str) (e : exn) :
  validate_description raw = Raise e -> exists m, e = BadParameter m.
Proof.
  unfold validate_description.
  destruct (length (join (lit " ") (split raw)) =? 0)%nat;
    [intros [= <-]; now eexists|].
  destruct (500 <? length (join (lit " ") (split raw)))%nat;
    [intros [= <-]; now eexists | discriminate].
Qed.

Lemma new_task_storable (w : World) (tasks : list Task) (raw valid : str) :
  clock_texts w -> is_text raw = true ->
  validate_description raw = Ok valid -> storable (new_task w tasks valid).
Proof.
  intros Hclock Hraw Hv. rewrite (validate_description_normalized raw Hv).
  repeat split; cbn [new_task description status createdAt updatedAt];
    try reflexivity; apply json_safe_text;
    [now apply normalized_text | apply Hclock | apply Hclock].
Qed.

Lemma updated_storable (t : Task) (d stamp : str) :
  storable t -> is_text d = true -> is_text stamp = true ->
  storable (updated t d stamp).
Proof.
  intros (Hd & Hst & Hcr & Hup) H1 H2.
  repeat split; cbn [updated description status createdAt updatedAt];
    try assumption; now apply json_safe_text.
Qed.

Lemma marked_storable (t : Task) (s stamp : str) :
  storable t -> json_safe s = true -> is_text stamp = true ->
  storable (marked t s stamp).
Proof.
  intros (Hd & Hst & Hcr & Hup) H1 H2.
  repeat split; cbn [marked description status createdAt updatedAt];
    try assumption; now apply json_safe_text.
Qed.

Lemma middle_storable (pre post : list Task) (t : Task) :
  Forall storable (pre ++ t :: post) -> storable t.
Proof.
  intros H. apply Forall_app in H. destruct H as [_ H]. now inversion H.
Qed.

Lemma status_run (w : World) (c : command) (i : Z) (s : str) :
  target c = Some i -> new_status c = Some s ->
  cli c w = _update_task_status i s w /\ json_safe s = true.
Proof.
  destruct c; try discriminate; cbn [target new_status cli];
    intros [= <-] [= <-]; now split.
Qed.

(** One command on a store that loads: the collection it leaves is the one
    [leaves] tells, the store holds it, and the exit code is 0, or 2 for an
    add that was refused. *)
Lemma cli_leaves (c : command) (w : World) (tasks : list Task) :
  holds w tasks -> Forall storable tasks -> clock_texts w -> command_texts c ->
  exists tasks',
    leaves w tasks c tasks'
    /\ holds (snd (cli c w)) tasks' /\ Forall storable tasks'
    /\ clock (snd (cli c w)) = clock w
    /\ exit_code (fst (cli c w)) = Some (if refused c then 2 else 0)%Z.
Proof.
  intros H Hs Hclock Hc.
  assert (Hmark : forall i s, target c = Some i -> new_status c = Some s ->
            exists tasks',
              leaves w tasks c tasks'
              /\ holds (snd (cli c w)) tasks' /\ Forall storable tasks'
              /\ clock (snd (cli c w)) = clock w
              /\ exit_code (fst (cli c w)) = Some 0%Z).
  { intros i s Hi Hst. destruct (status_run w c Hi Hst) as [-> Hsafe].
    destruct (match_or_miss i tasks) as [Hmiss | (pre & t & post & E & Ht & Hpre)].
    - rewrite (@status_miss_run w i s tasks H Hmiss). cbn [fst snd].
      exists tasks. split; [now apply (@leaves_miss w tasks c i)|].
      split; [now apply holds_same_file|]. now split.
    - subst tasks. rewrite (@status_hit_run w i s pre t post H Hpre Ht).
      cbn [fst snd].
      assert (Hs' : Forall storable
                      (pre ++ marked t s (clock w (ticks w)) :: post)).
      { apply (@replaced_storable pre post t); [|exact Hs].
        apply marked_storable; [exact (middle_storable _ _ _ Hs) | exact Hsafe|].
        apply Hclock. }
      eexists. split; [now apply (@leaves_mark w _ c i s pre t post)|].
      split; [now apply holds_after|]. now split. }
  destruct c as [d | i d | i | f | i | i]; cbn [cli command_texts refused] in *.
  - (* add *)
    destruct (validate_description d) as [valid|e] eqn:Hv.
    + rewrite (@add_run w tasks d valid H Hv). cbn [fst snd].
      assert (Hs' : Forall storable (tasks ++ [new_task w tasks valid])).
      { apply Forall_app. split; [exact Hs|]. constructor; [|constructor].
        now apply (@new_task_storable w tasks d). }
      eexists. split; [exact (@leaves_add w tasks d valid Hv)|].
      split; [now apply holds_after|]. now split.
    + unfold add. rewrite Hv. cbn [raise fst snd].
      destruct (validate_raises d Hv) as [m ->].
      exists tasks. split; [now apply (@leaves_refused w tasks d (BadParameter m))|].
      now repeat split.
  - (* update *)
    destruct (match_or_miss i tasks) as [Hmiss | (pre & t & post & E & Ht & Hpre)].
    + rewrite (@update_miss_run w i d tasks H Hmiss). cbn [fst snd].
      exists tasks. split; [now apply (@leaves_miss w tasks (Update i d) i)|].
      split; [now apply holds_same_file|]. now split.
    + subst tasks. rewrite (@update_hit_run w i d pre t post H Hpre Ht).
      cbn [fst snd].
      assert (Hs' : Forall storable
                      (pre ++ updated t d (clock w (ticks w)) :: post)).
      { apply (@replaced_storable pre post t); [|exact Hs].
        apply updated_storable; [exact (middle_storable _ _ _ Hs) | exact Hc|].
        apply Hclock. }
      eexists. split; [now apply (@leaves_update w _ i d pre t post)|].
      split; [now apply holds_after|]. now split.
  - (* delete *)
    rewrite (@delete_run w i tasks H). cbn [fst snd].
    assert (Hs' : Forall storable (filter (fun t => negb (id t =? i)%Z) tasks)).
    { rewrite Forall_forall in Hs |- *. intros t Ht. apply Hs.
      now apply filter_In in Ht. }
    eexists. split; [apply leaves_delete|].
    split; [now apply holds_after|]. now split.
  - (* list *)
    pose proof (@list_tasks_run w tasks f H) as Hrun. cbn zeta in Hrun.
    rewrite Hrun. cbn [fst snd].
    exists tasks. split; [apply leaves_list|].
    split; [now apply holds_same_file|]. now split.
  - exact (Hmark i (lit "done") eq_refl eq_refl).
  - exact (Hmark i (lit "in-progress") eq_refl eq_refl).
Qed.

(** ** Sessions on a store that loads *)

(** What every command keeps of a collection is kept by a session. *)
Lemma session_keeps (Q : list Task -> Prop) (allowed : command -> Prop) :
  (forall w tasks c tasks',
      allowed c -> Q tasks -> leaves w tasks c tasks' -> Q tasks') ->
  forall cs w tasks,
    Forall allowed cs -> Forall command_texts cs ->
    holds w tasks -> Forall storable tasks -> clock_texts w -> Q tasks ->
    exists tasks',
      holds (run_all cs w) tasks' /\ Forall storable tasks'
      /\ clock_texts (run_all cs w) /\ Q tasks'.
Proof.
  intros Hstep cs. induction cs as [|c cs IH];
    intros w tasks Hall Htexts H Hs Hclock HQ.
  - exists tasks. now repeat split.
  - inversion Hall as [|? ? Hc Hall']; subst.
    inversion Htexts as [|? ? Hct Htexts']; subst.
    destruct (@cli_leaves c w tasks H Hs Hclock Hct)
      as (tasks1 & Hl & H1 & Hs1 & Hclk & _).
    cbn [run_all]. apply (IH _ tasks1 Hall' Htexts' H1 Hs1).
    + intros n. rewrite Hclk. apply Hclock.
    + exact (Hstep w tasks c tasks1 Hc HQ Hl).
Qed.

Lemma Forall_True (A : Type) (l : list A) : Forall (fun _ => True) l.
Proof. induction l; now constructor. Qed.

(** ** mark-done and mark-in-progress *)

(** X6. When the store has a task with the given id, [mark_done] and
    [mark_in_progress] give the first such task the status done or
    in-progress, whatever its status was, and the current time as updatedAt;
    the id, the description and createdAt of that task and all the other
    tasks are saved as they were, and the change is reported on the
    standard output. *)
Theorem mark_sets_status (w : World) (tasks : list Task) (task_id : Z) :
  holds w tasks -> (exists t, In t tasks /\ id t = task_id) ->
  exists pre t post,
    tasks = pre ++ t :: post /\ id t = task_id
    /\ Forall (fun p => id p <> task_id) pre
    /\ mark_done task_id w
       = (Returns tt,
          world_after w
            (written (pre ++ marked t (lit "done") (clock w (ticks w)) :: post)) 1
            [lit "Task " ++ repr_int task_id ++ lit " marked as done"] [])
    /\ mark_in_progress task_id w
       = (Returns tt,
          world_after w
            (written (pre ++ marked t (lit "in-progress") (clock w (ticks w))
                        :: post)) 1
            [lit "Task " ++ repr_int task_id ++ lit " marked as in-progress"] []).
Proof.
  intros H Hex.
  destruct (@first_match task_id tasks Hex) as (pre & t & post & -> & Ht & Hpre).
  exists pre, t, post. repeat split; try assumption.
  - exact (@status_hit_run w task_id (lit "done") pre t post H Hpre Ht).
  - exact (@status_hit_run w task_id (lit "in-progress") pre t post H Hpre Ht).
Qed.

Lemma mark_sets_status_witness :
  exists pre t post,
    two_tasks = pre ++ t :: post /\ id t = 2%Z
    /\ Forall (fun p => id p <> 2%Z) pre
    /\ mark_done 2 world2
       = (Returns tt,
          world_after world2
            (written (pre ++ marked t (lit "done") (clock world2 (ticks world2))
                        :: post)) 1
            [lit "Task " ++ repr_int 2 ++ lit " marked as done"] [])
    /\ mark_in_progress 2 world2
       = (Returns tt,
          world_after world2
            (written (pre ++ marked t (lit "in-progress")
                               (clock world2 (ticks world2)) :: post)) 1
            [lit "Task " ++ repr_int 2 ++ lit " marked as in-progress"] []).
Proof.
  apply (@mark_sets_status world2 two_tasks 2).
  - vm_compute. reflexivity.
  - eexists. split; [right; left; reflexivity | reflexivity].
Defined.

(** ** A tasks file that cannot be read *)

(** A command that is not a refused add starts by loading: when
    [load_tasks] raises, the command ends there. *)
Lemma load_raises_aborts (c : command) (w : World) (e : exn) :
  load_tasks w = (Raises e, w) -> refused c = false -> cli c w = (Raises e, w).
Proof.
  intros Hload Hc.
  assert (Hbind : forall A (k : list Task -> prog A),
             bind load_tasks k w = (Raises e, w)).
  { intros A k. unfold bind. now rewrite Hload. }
  destruct c as [raw | i d | i | f | i | i]; cbn [cli refused] in *;
    try apply Hbind.
  unfold add. destruct (validate_description raw) as [valid|e']; [|discriminate].
  unfold bind at 1. unfold add_task. now rewrite Hbind.
Qed.

Lemma refused_aborts (c : command) (w : World) :
  refused c = true -> exists m, cli c w = (Raises (BadParameter m), w).
Proof.
  destruct c as [raw | i d | i | f | i | i]; try discriminate.
  cbn [refused cli]. unfold add.
  destruct (validate_description raw) as [valid|e] eqn:Hv; [discriminate|].
  destruct (validate_raises raw Hv) as [m ->]. intros _. now exists m.
Qed.

(** X7. When the tasks file cannot be accessed, every command ends with the
    error Error accessing tasks file followed by the reason, and with exit
    code 1, except an add whose description is refused, which ends with
    the error of the description and exit code 2; in both cases the
    file is not written, the clock is not read and nothing is echoed. *)
Theorem unreadable_file_aborts (w : World) (reason : str) (c : command) :
  tasks_file w = Unreadable reason ->
  (if refused c
   then exists m, cli c w = (Raises (BadParameter m), w)
   else cli c w
        = (Raises (ClickException (lit "Error accessing tasks file: " ++ reason)),
           w))
  /\ exit_code (fst (cli c w)) = Some (if refused c then 2 else 1)%Z.
Proof.
  intros Hf. destruct (refused c) eqn:Hc.
  - destruct (@refused_aborts c w Hc) as [m E]. rewrite E. split; [now exists m|].
    reflexivity.
  - assert (Hload : load_tasks w
                    = (Raises (ClickException
                                 (lit "Error accessing tasks file: " ++ reason)), w)).
    { unfold load_tasks. now rewrite Hf. }
    rewrite (load_raises_aborts c Hload Hc). now split.
Qed.

Lemma unreadable_file_aborts_witness :
  cli (List All) world_unreadable
  = (Raises (ClickException
               (lit "Error accessing tasks file: "
                  ++ lit "[Errno 13] Permission denied: 'tasks.json'")),
     world_unreadable)
  /\ exit_code (fst (cli (List All) world_unreadable)) = Some 1%Z.
Proof.
  exact (@unreadable_file_aborts world_unreadable
           (lit "[Errno 13] Permission denied: 'tasks.json'") (List All) eq_refl).
Defined.

(** ** What sessions keep *)

Lemma Forall_replaced (P : Task -> Prop) (pre post : list Task) (t t' : Task) :
  P t' -> Forall P (pre ++ t :: post) -> Forall P (pre ++ t' :: post).
Proof.
  intros Ht H. apply Forall_app in H. destruct H as [Hpre H].
  inversion H; subst. apply Forall_app. split; [exact Hpre|]. now constructor.
Qed.

Lemma Forall_filter (P : Task -> Prop) (p : Task -> bool) (tasks : list Task) :
  Forall P tasks -> Forall P (filter p tasks).
Proof.
  rewrite !Forall_forall. intros H t Ht. apply H. now apply filter_In in Ht.
Qed.

Lemma replaced_map (A : Type) (f : Task -> A) (pre post : list Task)
    (t t' : Task) :
  f t' = f t -> map f (pre ++ t' :: post) = map f (pre ++ t :: post).
Proof. intros E. rewrite !map_app. cbn [map]. now rewrite E. Qed.

Lemma ascending_weaken (low low' : Z) (ids : list Z) :
  (low' <= low)%Z -> ascending low ids -> ascending low' ids.
Proof. destruct ids as [|i ids]; [trivial|]. cbn [ascending]. intuition lia. Qed.

Lemma ascending_above (ids : list Z) :
  forall low, ascending low ids -> forall i, In i ids -> (low < i)%Z.
Proof.
  induction ids as [|a ids IH]; intros low H i Hi; [contradiction|].
  cbn [ascending] in H. destruct H as [Ha H].
  destruct Hi as [<- | Hi]; [exact Ha|]. specialize (IH a H i Hi). lia.
Qed.

Lemma ascending_last (ids : list Z) (x : Z) :
  forall low, ascending low ids -> (low < x)%Z ->
              (forall i, In i ids -> (i < x)%Z) -> ascending low (ids ++ [x]).
Proof.
  induction ids as [|a ids IH]; intros low H Hx Hall.
  - cbn [app ascending]. now split.
  - cbn [app ascending] in *. destruct H as [Ha H]. split; [exact Ha|].
    apply IH; [exact H | apply Hall; now left |].
    intros i Hi. apply Hall. now right.
Qed.

Lemma ascending_filter (p : Task -> bool) (tasks : list Task) :
  forall low, ascending low (map id tasks) ->
              ascending low (map id (filter p tasks)).
Proof.
  induction tasks as [|t tasks IH]; intros low H; [exact H|].
  cbn [map ascending filter] in *. destruct H as [Ht H].
  destruct (p t).
  - cbn [map ascending]. split; [exact Ht | now apply IH].
  - apply (@ascending_weaken (id t)); [lia | now apply IH].
Qed.

Lemma ascending_NoDup (ids : list Z) :
  forall low, ascending low ids -> NoDup ids.
Proof.
  induction ids as [|a ids IH]; intros low H; [constructor|].
  cbn [ascending] in H. destruct H as [_ H]. constructor; [|exact (IH a H)].
  intros Hin. pose proof (ascending_above ids a H a Hin). lia.
Qed.

(** X8. Tasks stay in the order of their ids.  When the ids of the store
    are positive and grow from one task to the next, as in a store without
    tasks, they are so after every session: no two tasks bear the same id,
    and a task that was added later stands later and bears a larger id. *)
Theorem ids_stay_ascending (cs : list command) (w : World) (tasks : list Task) :
  holds w tasks -> Forall storable tasks -> clock_texts w ->
  Forall command_texts cs -> ascending 0 (map id tasks) ->
  exists tasks',
    holds (run_all cs w) tasks'
    /\ ascending 0 (map id tasks') /\ NoDup (map id tasks').
Proof.
  intros H Hs Hclock Htexts Hasc.
  destruct (@session_keeps (fun l => ascending 0 (map id l)) (fun _ => True))
    with (cs := cs) (w := w) (tasks := tasks)
    as (tasks' & H' & _ & _ & Hasc'); try assumption.
  - intros w0 l c l' _ HQ Hl.
    destruct Hl as [raw valid Hv | | i d pre t post -> Ht Hpre
                   | c i s pre t post Hi Hst -> Ht Hpre | | i | ]; try exact HQ.
    + rewrite map_app. cbn [map new_task id].
      pose proof (max_default0_spec (map id l)) as Hm.
      apply ascending_last; [exact HQ | |].
      * destruct (map id l) as [|a ids] eqn:E; [rewrite Hm; lia|].
        destruct Hm as [Hin _].
        pose proof (ascending_above _ 0 HQ _ Hin). lia.
      * intros i Hi. destruct (map id l) as [|a ids]; [contradiction|].
        destruct Hm as [_ Hm]. specialize (Hm i Hi). lia.
    + now rewrite (@replaced_map Z id pre post t).
    + now rewrite (@replaced_map Z id pre post t).
    + now apply ascending_filter.
  - apply Forall_True.
  - exists tasks'. split; [exact H'|]. split; [exact Hasc'|].
    exact (ascending_NoDup _ 0 Hasc').
Qed.

Lemma ids_stay_ascending_witness :
  exists tasks',
    holds (run_all [Add (lit "A"); Add (lit "B"); Delete 1; Add (lit "C");
                    Update 3 (lit "D")] world0) tasks'
    /\ ascending 0 (map id tasks') /\ NoDup (map id tasks').
Proof.
  apply (@ids_stay_ascending
           [Add (lit "A"); Add (lit "B"); Delete 1; Add (lit "C");
            Update 3 (lit "D")] world0 []
           eq_refl (Forall_nil _) world0_clock_texts);
    [repeat constructor | exact I].
Defined.

(** X9. The program writes no status of its own but todo, in-progress and
    done: after every session, the status of a task is one of these three
    or a status that a task of the store had when the session began. *)
Theorem statuses_stay_known (cs : list command) (w : World) (tasks : list Task) :
  holds w tasks -> Forall storable tasks -> clock_texts w ->
  Forall command_texts cs ->
  exists tasks',
    holds (run_all cs w) tasks'
    /\ forall t', In t' tasks' ->
         In (status t') statuses
         \/ exists t, In t tasks /\ status t = status t'.
Proof.
  intros H Hs Hclock Htexts.
  set (known := fun t' : Task =>
                  In (status t') statuses
                  \/ exists t, In t tasks /\ status t = status t').
  destruct (@session_keeps (Forall known) (fun _ => True))
    with (cs := cs) (w := w) (tasks := tasks)
    as (tasks' & H' & _ & _ & Hk); try assumption.
  - intros w0 l c l' _ HQ Hl.
    destruct Hl as [raw valid Hv | | i d pre t post -> Ht Hpre
                   | c i s pre t post Hi Hst -> Ht Hpre | | i | ]; try exact HQ.
    + apply Forall_app. split; [exact HQ|]. constructor; [|constructor].
      left. cbn. tauto.
    + apply (@Forall_replaced known pre post t); [|exact HQ].
      apply Forall_app in HQ. destruct HQ as [_ HQ]. now inversion HQ.
    + apply (@Forall_replaced known pre post t); [|exact HQ].
      left. cbn [marked status].
      destruct c; try discriminate; injection Hst as <-; cbn; tauto.
    + now apply Forall_filter.
  - apply Forall_True.
  - apply Forall_forall. intros t Ht. right. now exists t.
  - exists tasks'. split; [exact H'|]. now apply Forall_forall.
Qed.

Lemma statuses_stay_known_witness :
  exists tasks',
    holds (run_all [Add (lit "A"); MarkDone 1; MarkInProgress 2] world2) tasks'
    /\ forall t', In t' tasks' ->
         In (status t') statuses
         \/ exists t, In t two_tasks /\ status t = status t'.
Proof.
  apply (@statuses_stay_known
           [Add (lit "A"); MarkDone 1; MarkInProgress 2] world2 two_tasks).
  - vm_compute. reflexivity.
  - repeat constructor.
  - exact world0_clock_texts.
  - repeat constructor.
Defined.

(** X10. The program neither invents nor alters a description: after every
    session, the description of a task is one that a task of the store had
    when the session began, or one that [validate_description] returned for
    the description of an add of the session, or the description of an
    update of the session as it was given. *)
Theorem descriptions_come_from_commands (cs : list command) (w : World)
    (tasks : list Task) :
  holds w tasks -> Forall storable tasks -> clock_texts w ->
  Forall command_texts cs ->
  exists tasks',
    holds (run_all cs w) tasks'
    /\ forall t', In t' tasks' ->
         (exists t, In t tasks /\ description t = description t')
         \/ (exists raw, In (Add raw) cs
                         /\ validate_description raw = Ok (description t'))
         \/ (exists i, In (Update i (description t')) cs).
Proof.
  intros H Hs Hclock Htexts.
  set (known := fun t' : Task =>
         (exists t, In t tasks /\ description t = description t')
         \/ (exists raw, In (Add raw) cs
                         /\ validate_description raw = Ok (description t'))
         \/ (exists i, In (Update i (description t')) cs)).
  destruct (@session_keeps (Forall known) (fun c => In c cs))
    with (cs := cs) (w := w) (tasks := tasks)
    as (tasks' & H' & _ & _ & Hk); try assumption.
  - intros w0 l c l' Hc HQ Hl. revert Hc.
    destruct Hl as [raw valid Hv | | i d pre t post -> Ht Hpre
                   | c i s pre t post Hi Hst -> Ht Hpre | | i | ];
      intros Hc; try exact HQ.
    + apply Forall_app. split; [exact HQ|]. constructor; [|constructor].
      right. left. now exists raw.
    + apply (@Forall_replaced known pre post t); [|exact HQ].
      right. right. now exists i.
    + apply (@Forall_replaced known pre post t); [|exact HQ].
      apply Forall_app in HQ. destruct HQ as [_ HQ]. now inversion HQ.
    + now apply Forall_filter.
  - apply Forall_forall. trivial.
  - apply Forall_forall. intros t Ht. left. now exists t.
  - exists tasks'. split; [exact H'|]. now apply Forall_forall.
Qed.

Lemma descriptions_come_from_commands_witness :
  exists tasks',
    holds (run_all [Add (lit " A  b "); Update 1 (lit " c ")] world2) tasks'
    /\ forall t', In t' tasks' ->
         (exists t, In t two_tasks /\ description t = description t')
         \/ (exists raw, In (Add raw) [Add (lit " A  b "); Update 1 (lit " c ")]
                         /\ validate_description raw = Ok (description t'))
         \/ (exists i, In (Update i (description t'))
                         [Add (lit " A  b "); Update 1 (lit " c ")]).
Proof.
  apply (@descriptions_come_from_commands
           [Add (lit " A  b "); Update 1 (lit " c ")] world2 two_tasks).
  - vm_compute. reflexivity.
  - repeat constructor.
  - exact world0_clock_texts.
  - repeat constructor.
Defined.

(** X11. Update, mark-done, mark-in-progress and list neither add, remove
    nor reorder tasks, and leave ids and creation times alone: after a
    session of such commands the store has the same ids and the same
    createdAt, in the same order. *)
Theorem edits_keep_identity (cs : list command) (w : World) (tasks : list Task) :
  holds w tasks -> Forall storable tasks -> clock_texts w ->
  Forall command_texts cs -> Forall edits cs ->
  exists tasks',
    holds (run_all cs w) tasks'
    /\ map id tasks' = map id tasks
    /\ map createdAt tasks' = map createdAt tasks.
Proof.
  intros H Hs Hclock Htexts Hedits.
  destruct (@session_keeps
              (fun l => map id l = map id tasks
                        /\ map createdAt l = map createdAt tasks) edits)
    with (cs := cs) (w := w) (tasks := tasks)
    as (tasks' & H' & _ & _ & Hk); try assumption.
  - intros w0 l c l' Hc HQ Hl. revert Hc.
    destruct Hl as [raw valid Hv | | i d pre t post -> Ht Hpre
                   | c i s pre t post Hi Hst -> Ht Hpre | | i | ];
      intros Hc; try exact HQ; try contradiction.
    + now rewrite (@replaced_map Z id pre post t),
        (@replaced_map _ createdAt pre post t).
    + now rewrite (@replaced_map Z id pre post t),
        (@replaced_map _ createdAt pre post t).
  - now split.
  - now exists tasks'.
Qed.

Lemma edits_keep_identity_witness :
  exists tasks',
    holds (run_all [Update 1 (lit "x"); MarkDone 2; List Done; MarkInProgress 5]
             world2) tasks'
    /\ map id tasks' = map id two_tasks
    /\ map createdAt tasks' = map createdAt two_tasks.
Proof.
  apply (@edits_keep_identity
           [Update 1 (lit "x"); MarkDone 2; List Done; MarkInProgress 5]
           world2 two_tasks).
  - vm_compute. reflexivity.
  - repeat constructor.
  - exact world0_clock_texts.
  - repeat constructor.
  - repeat constructor.
Defined.

(** ** Commands one after the other *)

Lemma filter_twice (p q : Task -> bool) (tasks : list Task) :
  filter p (filter q tasks) = filter q (filter p tasks).
Proof.
  induction tasks as [|t tasks IH]; [reflexivity|]. cbn [filter].
  destruct (q t) eqn:Eq, (p t) eqn:Ep; cbn [filter];
    rewrite ?Eq, ?Ep, IH; reflexivity.
Qed.

Lemma filter_again (p : Task -> bool) (tasks : list Task) :
  filter p (filter p tasks) = filter p tasks.
Proof.
  induction tasks as [|t tasks IH]; [reflexivity|]. cbn [filter].
  destruct (p t) eqn:Ep; cbn [filter]; rewrite ?Ep, IH; reflexivity.
Qed.

Lemma filter_all (p : Task -> bool) (tasks : list Task) :
  Forall (fun t => p t = true) tasks -> filter p tasks = tasks.
Proof.
  induction 1 as [|t tasks Ht _ IH]; [reflexivity|].
  cbn [filter]. now rewrite Ht, IH.
Qed.

(** The file two deletes leave. *)
Lemma delete_delete_file (w : World) (tasks : list Task) (i j : Z) :
  holds w tasks -> Forall storable tasks ->
  tasks_file (run_all [Delete i; Delete j] w)
  = written (filter (fun t => negb (id t =? j)%Z)
               (filter (fun t => negb (id t =? i)%Z) tasks)).
Proof.
  intros H Hs. cbn [run_all cli]. rewrite (@delete_run w i tasks H). cbn [snd].
  erewrite delete_run; [reflexivity|].
  apply holds_after. now apply Forall_filter.
Qed.

(** X12. Deleting twice is deleting once, and two deletes can be given in
    either order: the second delete of an id leaves the file that the
    first one left, and the file after the deletes of two ids does not
    depend on which came first. *)
Theorem delete_again_or_swapped (w : World) (tasks : list Task) (i j : Z) :
  holds w tasks -> Forall storable tasks ->
  tasks_file (run_all [Delete i; Delete i] w)
  = tasks_file (run_all [Delete i] w)
  /\ tasks_file (run_all [Delete i; Delete j] w)
     = tasks_file (run_all [Delete j; Delete i] w).
Proof.
  intros H Hs. rewrite !(@delete_delete_file w tasks) by assumption. split.
  - cbn [run_all cli]. rewrite (@delete_run w i tasks H). cbn [snd world_after tasks_file].
    now rewrite filter_again.
  - now rewrite filter_twice.
Qed.

Lemma delete_again_or_swapped_witness :
  tasks_file (run_all [Delete 1; Delete 1] world2)
  = tasks_file (run_all [Delete 1] world2)
  /\ tasks_file (run_all [Delete 1; Delete 2] world2)
     = tasks_file (run_all [Delete 2; Delete 1] world2).
Proof.
  apply (@delete_again_or_swapped world2 two_tasks 1 2).
  - vm_compute. reflexivity.
  - repeat constructor.
Defined.

(** X13. Deleting the task that was just added undoes the add: after an
    add whose description is accepted and the delete of the id it
    announced, the store holds the collection it held before. *)
Theorem add_then_delete_restores (w : World) (tasks : list Task)
    (raw valid : str) :
  holds w tasks -> Forall storable tasks -> clock_texts w ->
  is_text raw = true -> validate_description raw = Ok valid ->
  let new_id := (max_default0 (map id tasks) + 1)%Z in
  stdout (snd (add raw w))
  = stdout w ++ [lit "Task added successfully (ID: " ++ repr_int new_id ++ lit ")"]
  /\ tasks_file (run_all [Add raw; Delete new_id] w) = written tasks
  /\ holds (run_all [Add raw; Delete new_id] w) tasks.
Proof.
  intros H Hs Hclock Hraw Hv new_id.
  assert (Hfile : tasks_file (run_all [Add raw; Delete new_id] w) = written tasks).
  { cbn [run_all cli]. rewrite (@add_run w tasks raw valid H Hv). cbn [snd].
    erewrite delete_run.
    2:{ apply holds_after. apply Forall_app. split; [exact Hs|].
        constructor; [|constructor]. now apply (@new_task_storable w tasks raw). }
    cbn [snd world_after tasks_file]. f_equal.
    rewrite filter_app. cbn [filter new_task id]. fold new_id.
    rewrite Z.eqb_refl. cbn [negb]. rewrite app_nil_r.
    apply filter_all. apply Forall_forall. intros t Ht.
    apply id_neq_iff. intros E. apply (next_id_fresh tasks).
    fold new_id. rewrite <- E. now apply in_map. }
  split; [|split].
  - now rewrite (@add_run w tasks raw valid H Hv).
  - exact Hfile.
  - now apply holds_written.
Qed.

Lemma add_then_delete_restores_witness :
  stdout (snd (add (lit " Pay  rent ") world2))
  = stdout world2 ++ [lit "Task added successfully (ID: " ++ repr_int 3 ++ lit ")"]
  /\ tasks_file (run_all [Add (lit " Pay  rent "); Delete 3] world2)
     = written two_tasks
  /\ holds (run_all [Add (lit " Pay  rent "); Delete 3] world2) two_tasks.
Proof.
  apply (@add_then_delete_restores world2 two_tasks (lit " Pay  rent ")
           (lit "Pay rent")).
  - vm_compute. reflexivity.
  - repeat constructor.
  - exact world0_clock_texts.
  - reflexivity.
  - vm_compute. reflexivity.
Defined.

(** X14. A new description and a new status of the same task can be given in
    either order: an update followed by mark-done or mark-in-progress of
    the same id leaves the same file as the two commands the other way
    round. *)
Theorem update_and_mark_any_order (w : World) (tasks : list Task)
    (i : Z) (d : str) (c : command) :
  holds w tasks -> Forall storable tasks -> clock_texts w ->
  is_text d = true -> c = MarkDone i \/ c = MarkInProgress i ->
  tasks_file (run_all [Update i d; c] w)
  = tasks_file (run_all [c; Update i d] w).
Proof.
  intros H Hs Hclock Hd Hc.
  assert (Hst : exists s, target c = Some i /\ new_status c = Some s).
  { destruct Hc as [-> | ->]; eexists; split; reflexivity. }
  destruct Hst as (s & Hi & Hst). clear Hc.
  cbn [run_all]. change (cli (Update i d)) with (update i d).
  assert (Hcli : forall w0, cli c w0 = _update_task_status i s w0).
  { intros w0. exact (proj1 (status_run w0 c Hi Hst)). }
  pose proof (proj2 (status_run w c Hi Hst)) as Hsafe.
  rewrite !Hcli.
  destruct (match_or_miss i tasks) as [Hmiss | (pre & t & post & E & Ht & Hpre)].
  - rewrite (@update_miss_run w i d tasks H Hmiss),
      (@status_miss_run w i s tasks H Hmiss). cbn [snd].
    erewrite status_miss_run; [|apply holds_same_file; eassumption | exact Hmiss].
    erewrite update_miss_run; [|apply holds_same_file; eassumption | exact Hmiss].
    reflexivity.
  - subst tasks. pose proof (middle_storable _ _ _ Hs) as Hts.
    rewrite (@update_hit_run w i d pre t post H Hpre Ht),
      (@status_hit_run w i s pre t post H Hpre Ht). cbn [snd].
    erewrite (@status_hit_run _ i s pre (updated t d (clock w (ticks w))) post);
      [| |exact Hpre | exact Ht].
    2:{ apply holds_after. apply (@replaced_storable pre post t); [|exact Hs].
        apply updated_storable; [exact Hts | exact Hd | apply Hclock]. }
    erewrite (@update_hit_run _ i d pre (marked t s (clock w (ticks w))) post);
      [| |exact Hpre | exact Ht].
    2:{ apply holds_after. apply (@replaced_storable pre post t); [|exact Hs].
        apply marked_storable; [exact Hts | exact Hsafe | apply Hclock]. }
    reflexivity.
Qed.

Lemma update_and_mark_any_order_witness :
  tasks_file (run_all [Update 2 (lit "Call Bob"); MarkDone 2] world2)
  = tasks_file (run_all [MarkDone 2; Update 2 (lit "Call Bob")] world2).
Proof.
  apply (@update_and_mark_any_order world2 two_tasks 2 (lit "Call Bob") (MarkDone 2)).
  - vm_compute. reflexivity.
  - repeat constructor.
  - exact world0_clock_texts.
  - reflexivity.
  - left. reflexivity.
Defined.

(** ** The text of the tasks file *)

Lemma plain_app (a b : str) :
  forallb plain a = true -> forallb plain b = true ->
  forallb plain (a ++ b) = true.
Proof. intros Ha Hb. now rewrite forallb_app, Ha, Hb. Qed.

Lemma plain_digits (u : uint) : forallb plain (digits u) = true.
Proof. induction u; cbn [digits forallb]; try reflexivity; exact IHu. Qed.

Lemma plain_repr_int (z : Z) : forallb plain (repr_int z) = true.
Proof.
  unfold repr_int. destruct (Z.to_int z); cbn [forallb];
    now rewrite plain_digits.
Qed.

Lemma plain_hexdigit (d : N) : (d < 16)%N -> plain (hexdigit d) = true.
Proof.
  intros H. unfold hexdigit, plain.
  destruct (d <? 10)%N eqn:E;
    [apply N.ltb_lt in E | apply N.ltb_ge in E];
    apply orb_true_iff; right; apply andb_true_iff;
    split; apply N.leb_le; lia.
Qed.

Lemma plain_u_escape (n : N) : forallb plain (u_escape n) = true.
Proof.
  unfold u_escape. cbn [forallb].
  rewrite !plain_hexdigit by (apply N.mod_lt; discriminate). reflexivity.
Qed.

Lemma plain_escape_char (c : N) : forallb plain (escape_char c) = true.
Proof.
  unfold escape_char.
  repeat match goal with
         | |- context [if ?b then _ else _] => destruct b eqn:?
         end; try reflexivity.
  - cbn [forallb]. unfold plain. rewrite Heqb6. now rewrite orb_true_r.
  - apply plain_u_escape.
  - apply plain_app; apply plain_u_escape.
Qed.

Lemma plain_basestring (s : str) :
  forallb plain (encode_basestring_ascii s) = true.
Proof.
  unfold encode_basestring_ascii. cbn [forallb].
  apply andb_true_iff. split; [reflexivity|]. apply plain_app; [|reflexivity].
  induction s as [|c s IH]; [reflexivity|]. cbn [flat_map].
  apply plain_app; [apply plain_escape_char | exact IH].
Qed.

Lemma plain_newline_indent (level : nat) :
  forallb plain (newline_indent level) = true.
Proof.
  unfold newline_indent. cbn [forallb]. apply andb_true_iff.
  split; [reflexivity|]. induction (2 * level) as [|n IH]; [reflexivity|].
  cbn [repeat forallb]. now rewrite IH.
Qed.

Lemma plain_join (sep : str) (texts : list str) :
  forallb plain sep = true -> Forall (fun x => forallb plain x = true) texts ->
  forallb plain (join sep texts) = true.
Proof.
  intros Hsep. induction 1 as [|x texts Hx _ IH]; [reflexivity|].
  rewrite join_cons. apply plain_app; [exact Hx|].
  destruct texts; [reflexivity|]. now apply plain_app.
Qed.

Lemma plain_task (level : nat) (t : Task) :
  forallb plain (encode level (task_to_json t)) = true.
Proof.
  unfold task_to_json. cbn [encode map fst snd].
  repeat first [ apply plain_basestring
               | apply plain_repr_int
               | apply plain_newline_indent
               | apply plain_join
               | apply plain_app
               | apply Forall_cons
               | apply Forall_nil
               | reflexivity ].
Qed.

Lemma plain_tasks (level : nat) (tasks : list Task) :
  Forall (fun x => forallb plain x = true)
    (map (encode level) (map task_to_json tasks)).
Proof.
  induction tasks as [|t tasks IH]; [constructor|].
  cbn [map]. constructor; [apply plain_task | exact IH].
Qed.

(** X15. The tasks file that [save_tasks] writes is plain ASCII, whatever
    the characters of the descriptions: it holds line feeds and characters
    from space to tilde, and nothing else. *)
Theorem saved_file_is_ascii (tasks : list Task) (w : World) :
  exists text,
    tasks_file (snd (save_tasks tasks w)) = Contents text
    /\ forallb plain text = true.
Proof.
  eexists. split; [reflexivity|].
  unfold json_dumps, tasks_to_json.
  pose proof (plain_tasks 1 tasks) as Hall.
  destruct (map task_to_json tasks) as [|x items] eqn:E; [reflexivity|].
  cbn [encode]. rewrite <- E in *.
  repeat first [ apply plain_newline_indent
               | apply plain_join
               | apply plain_app
               | exact Hall
               | reflexivity ].
Qed.
